(** * npm-offline-packager: the dependency resolver and the tarball downloader

    A shallow embedding of [lib/fetch-packages.js]
    ([getManifestDependencies], [getPackageManifest], [resolveDependencies],
    [downloadPackageTarball], [downloadPackages]) and the properties of the
    resolve-and-fetch pipeline that the specification states about it.

    Conventions of the embedding:
    - a JS string is a [string]; a template literal is written with [+:+];
    - an optional property ([undefined] or a value) is an [option];
    - a plain JS object used as a dictionary (the dependency tables of a
      manifest) is an insertion-ordered list of properties with unique names;
    - a promise is represented by the way it settles ([Settled]); the registry
      and the file system are an oracle record ([Pacote]) that answers every
      request, so that "identical registry responses" is the default;
    - effects (the visited set, the tarball cache, the options object, the
      logger sink, the console) are threaded explicitly through a state;
    - the asynchronous recursion of the resolver is a [Fixpoint] on a fuel
      argument, [None] meaning that the fuel ran out. *)

From Stdlib Require Import ZArith QArith String Ascii List Lia.
From stdpp Require Import base gmap sets list strings.

Open Scope string_scope.
Open Scope list_scope.

(** ** JavaScript values and operators *)

(** [s.replace(c, r)] for a one-character search string [c]: only the first
    occurrence is replaced. *)
Fixpoint replace (c : ascii) (r : string) (s : string) : string :=
  match s with
  | EmptyString => EmptyString
  | String a s' => if Ascii.eqb a c then r +:+ s' else String a (replace c r s')
  end.

(** Whether the character [c] occurs in [s]. *)
Fixpoint occurs (c : ascii) (s : string) : bool :=
  match s with
  | EmptyString => false
  | String a s' => Ascii.eqb a c || occurs c s'
  end.

(** [x || d] on an optional string: [undefined] and the empty string are falsy. *)
Definition str_or (x : option string) (d : string) : string :=
  match x with
  | Some EmptyString | None => d
  | Some s => s
  end.

(** [x || 0] on an optional integer-valued number. *)
Definition int_or0 (x : option Z) : Z :=
  match x with Some z => z | None => 0%Z end.

(** [x || 0] on an optional fraction; numbers are exact rationals kept in
    lowest terms. *)
Definition frac_or0 (x : option Q) : Q :=
  match x with
  | Some q => if Qeq_bool q 0 then 0%Q else q
  | None => 0%Q
  end.

(** [`${x}`] for an optional string inside a template literal. *)
Definition template_of (x : option string) : string :=
  match x with Some s => s | None => "undefined" end.

(** ** Property tables

    [Obj] is a JS object whose own enumerable properties are strings, listed
    in insertion order (property names are package names, none of them an
    array index). *)
Definition Obj := list (string * string).

Fixpoint obj_get (k : string) (o : Obj) : option string :=
  match o with
  | [] => None
  | (k', v) :: o' => if String.eqb k' k then Some v else obj_get k o'
  end.

(** [o[k] = v]: an existing property keeps its position, a new one is
    appended. *)
Fixpoint obj_set (k v : string) (o : Obj) : Obj :=
  match o with
  | [] => [(k, v)]
  | (k', v') :: o' =>
      if String.eqb k' k then (k', v) :: o' else (k', v') :: obj_set k v o'
  end.

Definition obj_keys (o : Obj) : list string := fst <$> o.

(** One step of lodash's [merge] for string-valued sources: every property
    of the source is assigned onto the destination. *)
Definition merge_into (dest : Obj) (source : Obj) : Obj :=
  fold_left (fun o kv => obj_set (fst kv) (snd kv) o) source dest.

(** [merge(object, ...sources)]: the destination is [Object(object)] (an
    absent destination becomes a fresh object); sources that are absent are
    skipped; later sources overwrite earlier ones. *)
Definition merge (object : option Obj) (sources : list (option Obj)) : Obj :=
  fold_left
    (fun o src => match src with Some s => merge_into o s | None => o end)
    sources
    (merge_into [] (default [] object)).

(** ** The semver library

    [semver.valid] and [semver.coerce] belong to the third-party [semver]
    package; the resolver is stated over any implementation of them. *)
Class Semver := {
  valid : string -> bool;              (* truthiness of [semver.valid(v)] *)
  coerce : string -> option string     (* [semver.coerce(v)]: [null] or its [.version] *)
}.

(** ** Data of the pipeline *)

Record Manifest := {
  name : string;
  version : string;
  dependencies : option Obj;
  devDependencies : option Obj;
  peerDependencies : option Obj;
  optionalDependencies : option Obj;
  isLatest : option bool
}.

(** The options object of [resolveDependencies]; [depth] and [progress] are
    the two fields the resolver itself writes. *)
Record Options := {
  dev : bool;
  peer : bool;
  optional : bool;
  registry : option string;
  logger : bool;                       (* whether a logger sink was supplied *)
  depth : option Z;
  progress : option Q
}.

Record Edge := { edge_name : string; edge_version : string }.

Record Resolved := {
  r_name : string;
  r_version : string;
  r_isLatest : option bool
}.

(** ** getManifestDependencies *)

(** The [merge(...)] expression that builds [packages] (lodash also leaves
    the merged table in [manifest.dependencies]; nothing reads it again). *)
Definition mergedPackages (manifest : Manifest) (options : Options) : Obj :=
  merge (dependencies manifest)
    [ if dev options then devDependencies manifest else Some [];
      if peer options then peerDependencies manifest else Some [];
      if optional options then optionalDependencies manifest else Some [] ].

(** [version.replace('^', '').replace('~', '')] *)
Definition cleanVersion (version : string) : string :=
  replace "~" EmptyString (replace "^" EmptyString version).

(** The body of the [map] callback: the query version of one edge.  The
    cleaned string is only tested; when it is valid the range itself is kept. *)
Definition queryVersion `{Semver} (version : string) : string :=
  if valid (cleanVersion version) then version
  else match coerce (cleanVersion version) with
       | None => "latest"
       | Some v => v
       end.

(** [Object.keys(packages).map(...)]: property names are unique, so reading
    [packages[name]] for every key is a map over the properties. *)
Definition getManifestDependencies `{Semver}
    (manifest : Manifest) (options : Options) : list Edge :=
  (fun kv => {| edge_name := fst kv; edge_version := queryVersion (snd kv) |})
    <$> mergedPackages manifest options.

(** ** The registry client (pacote) *)

Record DistTags := { latest : option string }.

(** A JS error object: [code] and [distTags] are the properties the client
    inspects. *)
Record JsError := {
  code : option string;
  distTags : option DistTags;
  message : string
}.

(** [new Error(msg)] *)
Definition Error (msg : string) : JsError :=
  {| code := None; distTags := None; message := msg |}.

(** The [TypeError] raised by destructuring a property of [undefined]. *)
Definition TypeError (msg : string) : JsError :=
  {| code := None; distTags := None; message := msg |}.

(** How a promise settles. *)
Inductive Settled (A : Type) : Type :=
  | Fulfilled (value : A)
  | Rejected (reason : JsError).
Arguments Fulfilled {A} value.
Arguments Rejected {A} reason.

Record Packument := { dist_tags : DistTags }.

(** The package spec handed to pacote, which parses the text back into a
    name and a version or tag. *)
Inductive PackageSpec : Type :=
  | NameAtVersion (packageName packageVersion : string)   (* [`${name}@${version}`] *)
  | BareName (packageName : string).                       (* [name]: the default tag, [latest] *)

Definition spec_text (s : PackageSpec) : string :=
  match s with
  | NameAtVersion n v => n +:+ "@" +:+ v
  | BareName n => n
  end.

(** The answers of the registry and of the file system, one per request;
    [packumentRejectsFirst] says which rejection [Promise.all] sees first
    when both of its promises reject. *)
Record Pacote := {
  pacote_manifest : PackageSpec -> Settled Manifest;
  pacote_packument : string -> Settled Packument;
  pacote_tarball_toFile : PackageSpec -> string -> option JsError;
  packumentRejectsFirst : bool
}.

Inductive ConsoleLine : Type :=
  | Text (s : string)
  | Object (e : JsError).

(** [handlerError(error)]: what [console.error] receives. *)
Definition handlerError (error : JsError) : ConsoleLine :=
  match message error with
  | EmptyString => Object error
  | msg => Text msg
  end.

Definition dquote : string := String (ascii_of_nat 34) EmptyString.
Definition newline : string := String (ascii_of_nat 10) EmptyString.

(** ** getPackageManifest *)

(** What one call did: how its promise settled, the requests it sent and
    the lines it printed. *)
Record Fetch := {
  outcome : Settled Manifest;
  manifestCalls : list PackageSpec;
  packumentCalls : list string;
  printed : list ConsoleLine
}.

(** The first promise of the [Promise.all]: [pacote.manifest(...)] with its
    [catch] handler. *)
Definition manifestWithFallback (pacote : Pacote)
    (packageName packageVersion : string)
    : Settled Manifest * list PackageSpec * list ConsoleLine :=
  let first := NameAtVersion packageName packageVersion in
  match pacote_manifest pacote first with
  | Fulfilled m => (Fulfilled m, [first], [])
  | Rejected error =>
      if bool_decide (code error = Some "ETARGET") then
        match distTags error with
        | None =>
            (Rejected (TypeError "Cannot destructure property 'latest' of 'error.distTags' as it is undefined."),
             [first], [])
        | Some tags =>
            let retry := NameAtVersion packageName (template_of (latest tags)) in
            (pacote_manifest pacote retry, [first; retry], [])
        end
      else if bool_decide (code error = Some "E404") then
        let line :=
          Text (newline +:+ "Error: " +:+ dquote +:+ packageName +:+ "@"
                +:+ packageVersion +:+ dquote +:+ " not found") in
        if negb (String.eqb packageVersion "latest")
        then (pacote_manifest pacote (BareName packageName),
              [first; BareName packageName], [line])
        else (Rejected (Error (packageName +:+ "@" +:+ packageVersion +:+ " not found")),
              [first], [line])
      else (Rejected error, [first], [])
  end.

(** [manifest.isLatest = ...; return manifest] *)
Definition withIsLatest (m : Manifest) (b : bool) : Manifest :=
  {| name := name m; version := version m;
     dependencies := dependencies m;
     devDependencies := devDependencies m;
     peerDependencies := peerDependencies m;
     optionalDependencies := optionalDependencies m;
     isLatest := Some b |}.

(** [Promise.all([a, b]).then(f)]: fulfilled when both are, otherwise
    rejected with the rejection that came first. *)
Definition all2_then {A B C : Type} (bFirst : bool)
    (a : Settled A) (b : Settled B) (f : A -> B -> C) : Settled C :=
  match a, b with
  | Fulfilled x, Fulfilled y => Fulfilled (f x y)
  | Rejected e, Fulfilled _ => Rejected e
  | Fulfilled _, Rejected e => Rejected e
  | Rejected e, Rejected e' => Rejected (if bFirst then e' else e)
  end.

Definition getPackageManifest (pacote : Pacote)
    (packageName packageVersion : string) : Fetch :=
  let '(manifestPromise, calls, lines) :=
    manifestWithFallback pacote packageName packageVersion in
  let wantsPackument := negb (String.eqb packageVersion "latest") in
  let packumentPromise : Settled (option Packument) :=
    if wantsPackument then
      match pacote_packument pacote packageName with
      | Fulfilled p => Fulfilled (Some p)
      | Rejected e => Rejected e
      end
    else Fulfilled None (* [Promise.resolve()] *) in
  {| outcome :=
       all2_then (packumentRejectsFirst pacote) manifestPromise packumentPromise
         (fun manifest packument =>
            match packument with
            | Some p =>
                withIsLatest manifest
                  (bool_decide (latest (dist_tags p) = Some (version manifest)))
            | None => withIsLatest manifest true
            end);
     manifestCalls := calls;
     packumentCalls := if wantsPackument then [packageName] else [];
     printed := lines |}.

(** ** The two caches of [lib/cache] *)

(** Modelled from the spec: the visited set [resolvedPackages] of
    [lib/cache], which is not among the sources.  It is a set of
    [(name, version)] keys with a membership test ([get]), an insertion
    ([set]) and a reset ([clean]). *)
Definition visited_get (n v : string) (s : gset (string * string)) : bool :=
  bool_decide ((n, v) ∈ s).

Definition visited_set (n v : string) (s : gset (string * string))
    : gset (string * string) :=
  {[ (n, v) ]} ∪ s.

Definition visited_clean : gset (string * string) := ∅.

(** Modelled from the spec: the tarball cache [cache] of [lib/cache], which
    is not among the sources.  It is a durable set of [(name, version)] keys
    with [exist] and [add]. *)
Definition cache_exist (n v : string) (s : gset (string * string)) : bool :=
  bool_decide ((n, v) ∈ s).

Definition cache_add (n v : string) (s : gset (string * string))
    : gset (string * string) :=
  {[ (n, v) ]} ∪ s.

(** ** resolveDependencies *)

(** The state a resolve pass works on: the options object (one object,
    shared by every level of the recursion), the visited set, what the logger
    sink received and what was printed on the console. *)
Record Env := {
  options : Options;
  resolvedPackages : gset (string * string);
  logged : list (string * Q);
  console : list ConsoleLine
}.

Definition with_depth (o : Options) (d : option Z) : Options :=
  {| dev := dev o; peer := peer o; optional := optional o;
     registry := registry o; logger := logger o;
     depth := d; progress := progress o |}.

Definition with_progress (o : Options) (p : option Q) : Options :=
  {| dev := dev o; peer := peer o; optional := optional o;
     registry := registry o; logger := logger o;
     depth := depth o; progress := p |}.

Definition with_options (env : Env) (o : Options) : Env :=
  {| options := o; resolvedPackages := resolvedPackages env;
     logged := logged env; console := console env |}.

(** [logger(message, percent)], a no-op when no sink was supplied. *)
Definition log (env : Env) (msg : string) (percent : Q) : Env :=
  {| options := options env; resolvedPackages := resolvedPackages env;
     logged := if logger (options env) then logged env ++ [(msg, percent)]
               else logged env;
     console := console env |}.

Definition print (env : Env) (lines : list ConsoleLine) : Env :=
  {| options := options env; resolvedPackages := resolvedPackages env;
     logged := logged env; console := console env ++ lines |}.

Definition mark_resolved (env : Env) (n v : string) : Env :=
  {| options := options env;
     resolvedPackages := visited_set n v (resolvedPackages env);
     logged := logged env; console := console env |}.

Definition key (m : Manifest) : string * string := (name m, version m).
Definition r_key (r : Resolved) : string * string := (r_name r, r_version r).

(** [options.depth = options.depth || 0; options.progress = options.progress || 0] *)
Definition init_counters (o : Options) : Options :=
  with_progress (with_depth o (Some (int_or0 (depth o))))
                (Some (frac_or0 (progress o))).

(** [getPackageManifest(...).catch(handlerError)]: a rejection is printed and
    becomes [undefined]. *)
Definition caught (f : Fetch) : option Manifest * list ConsoleLine :=
  match outcome f with
  | Fulfilled m => (Some m, printed f)
  | Rejected e => (None, printed f ++ [handlerError e])
  end.

(** The [forEach] that logs every new manifest and marks it resolved. *)
Definition announce (env : Env) (p : Manifest) : Env :=
  mark_resolved
    (log env ("Resolving dependencies: " +:+ name p +:+ "@" +:+ version p)
         (default 0%Q (progress (options env))))
    (name p) (version p).

(** [Object.assign(options, { depth: options.depth + 1 })]: the same object,
    its [depth] overwritten ([undefined + 1] is not a number). *)
Definition assign_depth_plus_1 (o : Options) : Options :=
  with_depth o (match depth o with Some d => Some (d + 1)%Z | None => None end).

(** [options.progress += 1 / dependencies.length] *)
Definition add_progress (o : Options) (n : nat) : Options :=
  with_progress o
    (match progress o with
     | Some p => Some (Qred (Qplus p (Qmake 1 (Pos.of_nat n))))
     | None => None
     end).

(** The [for ... of manifests] loop; [resolve] is the recursive call and
    [n] is [dependencies.length]. *)
Fixpoint forManifests
    (resolve : Manifest -> Env -> option (list Resolved * Env))
    (n : nat) (manifests : list Manifest) (env : Env)
    : option (list Resolved * Env) :=
  match manifests with
  | [] => Some ([], env)
  | currManifest :: rest =>
      let pushed :=
        {| r_name := name currManifest; r_version := version currManifest;
           r_isLatest := isLatest currManifest |} in
      match resolve currManifest
              (with_options env (assign_depth_plus_1 (options env))) with
      | None => None
      | Some (dependenciesChilds, env1) =>
          let env2 :=
            if bool_decide (depth (options env1) = Some 0%Z)
            then with_options env1 (add_progress (options env1) n)
            else env1 in
          match forManifests resolve n rest env2 with
          | None => None
          | Some (more, env3) => Some (pushed :: dependenciesChilds ++ more, env3)
          end
      end
  end.

(** The manifests fetched for the edges that pass the first filter, in the
    order of the edges, together with what the fetches printed. *)
Definition fetchManifests (pacote : Pacote) (visited : gset (string * string))
    (dependencies : list Edge) : list (option Manifest * list ConsoleLine) :=
  (fun e => caught (getPackageManifest pacote (edge_name e) (edge_version e)))
    <$> filter (fun e => negb (visited_get (edge_name e) (edge_version e) visited))
               dependencies.

(** The second filter: defined manifests whose real version is not yet in
    the visited set. *)
Definition newManifests (visited : gset (string * string))
    (fetched : list (option Manifest * list ConsoleLine)) : list Manifest :=
  filter (fun m => negb (visited_get (name m) (version m) visited))
         (omap fst fetched).

Fixpoint resolveDependencies `{Semver} (fuel : nat) (pacote : Pacote)
    (manifest : Manifest) (env : Env) : option (list Resolved * Env) :=
  match fuel with
  | O => None
  | S fuel' =>
      let dependencies := getManifestDependencies manifest (options env) in
      match dependencies with
      | [] => Some ([], env)
      | _ :: _ =>
          let env0 := with_options env (init_counters (options env)) in
          let fetched :=
            fetchManifests pacote (resolvedPackages env0) dependencies in
          let env1 := print env0 (concat (snd <$> fetched)) in
          let manifests := newManifests (resolvedPackages env1) fetched in
          let env2 := fold_left announce manifests env1 in
          forManifests (resolveDependencies fuel' pacote)
                       (length dependencies) manifests env2
      end
  end.

(** A pass as the command line starts it: the visited set is cleaned and the
    options carry neither [depth] nor [progress]. *)
Definition freshOptions (d p o : bool) (r : option string) (l : bool) : Options :=
  {| dev := d; peer := p; optional := o; registry := r; logger := l;
     depth := None; progress := None |}.

Definition freshEnv (o : Options) : Env :=
  {| options := o; resolvedPackages := visited_clean; logged := []; console := [] |}.

(** ** downloadPackageTarball *)

(** JS truthiness of an optional boolean, [Boolean(x)]. *)
Definition truthy (x : option bool) : bool := default false x.

(** The second argument of [pacote.tarball.toFile]. *)
Definition tarballPath (destFolder packageName packageVersion : string)
    (latestFlag : option bool) : string :=
  destFolder +:+ "/" +:+ replace "/" "-" packageName +:+ "-" +:+ packageVersion
    +:+ (if truthy latestFlag then "-latest" else EmptyString) +:+ ".tgz".

Record TarballOptions := {
  t_destFolder : string;
  t_isLatest : option bool;
  t_registry : option string
}.

(** The request [downloadPackageTarball] sends: the spec and the file path. *)
Definition tarballRequest (packageName packageVersion : string)
    (opts : TarballOptions) : PackageSpec * string :=
  (NameAtVersion packageName packageVersion,
   tarballPath (t_destFolder opts) packageName packageVersion (t_isLatest opts)).

Definition downloadPackageTarball (pacote : Pacote)
    (packageName packageVersion : string) (opts : TarballOptions)
    : Settled Resolved :=
  let request := tarballRequest packageName packageVersion opts in
  match pacote_tarball_toFile pacote (fst request) (snd request) with
  | None =>
      Fulfilled {| r_name := packageName; r_version := packageVersion;
                   r_isLatest := Some (truthy (t_isLatest opts)) |}
  | Some error => Rejected error
  end.

(** ** downloadPackages *)

Record DownloadOptions := {
  useCache : bool;
  destFolder : option string;
  dl_registry : option string;
  dl_logger : bool
}.

(** The state of a download batch: the tarball cache, the [counter] local,
    the logger sink and the console. *)
Record DownloadEnv := {
  cache : gset (string * string);
  counter : nat;
  dl_logged : list (string * Q);
  dl_console : list ConsoleLine
}.

(** [useCache ? packages.filter(... !cache.exist(name, version)) : packages] *)
Definition packagesToDownload (options : DownloadOptions)
    (cached : gset (string * string)) (packages : list Resolved) : list Resolved :=
  if useCache options
  then filter (fun p => negb (cache_exist (r_name p) (r_version p) cached)) packages
  else packages.

Definition tarballOptionsFor (options : DownloadOptions) (p : Resolved)
    : TarballOptions :=
  {| t_destFolder := str_or (destFolder options) ".";
     t_isLatest := r_isLatest p;
     t_registry := dl_registry options |}.

(** The value the chain [.then(...).catch(...)] settles with: the [then]
    handler returns [res], the [catch] handler returns [null]. *)
Definition chainValue (downloaded : Settled Resolved) : Settled (option Resolved) :=
  match downloaded with
  | Fulfilled res => Fulfilled (Some res)
  | Rejected _ => Fulfilled None
  end.

(** The effect of the handler that runs when one download settles; [total]
    is [packagesToDownload.length]. *)
Definition chainEffect (options : DownloadOptions) (total : nat)
    (downloaded : Settled Resolved) (env : DownloadEnv) : DownloadEnv :=
  match downloaded with
  | Fulfilled res =>
      let counter' := S (counter env) in
      let percent := Qred (Qmult (Qmake 1 (Pos.of_nat total))
                                 (inject_Z (Z.of_nat counter'))) in
      {| cache := if useCache options
                  then cache_add (r_name res) (r_version res) (cache env)
                  else cache env;
         counter := counter';
         dl_logged :=
           if dl_logger options
           then dl_logged env ++
                [("Fetching packages: " +:+ r_name res +:+ "@" +:+ r_version res,
                  percent)]
           else dl_logged env;
         dl_console := dl_console env |}
  | Rejected error =>
      {| cache := cache env; counter := counter env; dl_logged := dl_logged env;
         dl_console := dl_console env ++ [handlerError error] |}
  end.

(** What a batch did: the array [Promise.allSettled] resolved with (in the
    order of the input), the tarball requests that were sent, and the state
    the handlers left. *)
Record Batch := {
  result : list (Settled (option Resolved));
  requests : list (PackageSpec * string);
  after : DownloadEnv
}.

(** [schedule] lists the positions of [packagesToDownload] in the order in
    which their downloads settle; the handlers run in that order. *)
Definition downloadPackages (pacote : Pacote) (packages : list Resolved)
    (options : DownloadOptions) (schedule : list nat) (env : DownloadEnv) : Batch :=
  let toDownload := packagesToDownload options (cache env) packages in
  let started :=
    (fun p => downloadPackageTarball pacote (r_name p) (r_version p)
                (tarballOptionsFor options p)) <$> toDownload in
  {| result := chainValue <$> started;
     requests :=
       (fun p => tarballRequest (r_name p) (r_version p)
                   (tarballOptionsFor options p)) <$> toDownload;
     after :=
       fold_left
         (fun e i => match started !! i with
                     | Some d => chainEffect options (length toDownload) d e
                     | None => e
                     end)
         schedule
         {| cache := cache env; counter := 0; dl_logged := dl_logged env;
            dl_console := dl_console env |} |}.

(** ** A reference implementation of the semver interface *)

Definition is_digit (c : ascii) : bool :=
  (48 <=? nat_of_ascii c)%nat && (nat_of_ascii c <=? 57)%nat.

Definition is_ident_char (c : ascii) : bool :=
  let n := nat_of_ascii c in
  is_digit c || ((65 <=? n)%nat && (n <=? 90)%nat)
  || ((97 <=? n)%nat && (n <=? 122)%nat) || (n =? 45)%nat.

(** The longest prefix of digits and what follows it. *)
Fixpoint span_digits (s : string) : string * string :=
  match s with
  | String c s' =>
      if is_digit c
      then let (d, r) := span_digits s' in (String c d, r)
      else (EmptyString, s)
  | EmptyString => (EmptyString, EmptyString)
  end.

(** A numeric identifier: [0] or digits that do not start with [0]. *)
Definition numeric (s : string) : option (string * string) :=
  match span_digits s with
  | (EmptyString, _) => None
  | (String a EmptyString, r) => Some (String a EmptyString, r)
  | (String a d, r) => if Ascii.eqb a "0" then None else Some (String a d, r)
  end.

(** The rest of [s] after the character [c], if [s] starts with it. *)
Definition expect (c : ascii) (s : string) : option string :=
  match s with
  | String a s' => if Ascii.eqb a c then Some s' else None
  | EmptyString => None
  end.

(** Dot-separated non-empty identifiers; [fresh] holds at the start of an
    identifier. *)
Fixpoint identifiers (fresh : bool) (s : string) : bool :=
  match s with
  | EmptyString => negb fresh
  | String c s' =>
      if Ascii.eqb c "." then negb fresh && identifiers true s'
      else is_ident_char c && identifiers false s'
  end.

(** Modelled from the spec: a concrete version is a string matching
    [MAJOR.MINOR.PATCH[-prerelease]] (the [semver] package is not part of
    this repository). *)
Definition semver_valid (s : string) : bool :=
  match numeric s with
  | None => false
  | Some (_, r) =>
  match expect "." r with
  | None => false
  | Some r1 =>
  match numeric r1 with
  | None => false
  | Some (_, r) =>
  match expect "." r with
  | None => false
  | Some r2 =>
  match numeric r2 with
  | None => false
  | Some (_, EmptyString) => true
  | Some (_, r3) =>
      match expect "-" r3 with
      | Some pre => identifiers true pre
      | None => false
      end
  end end end end end.

(** Skip to the first digit. *)
Fixpoint from_first_digit (s : string) : string :=
  match s with
  | EmptyString => EmptyString
  | String c s' => if is_digit c then s else from_first_digit s'
  end.

(** An optional [.N] group: the digits, or [0] when the group is missing. *)
Definition dot_group (s : string) : string * string :=
  match expect "." s with
  | Some s' =>
      match span_digits s' with
      | (EmptyString, _) => ("0", s)
      | (d, r) => (d, r)
      end
  | None => ("0", s)
  end.

(** The first contiguous [N[.N[.N]]] substring, zero-filled. *)
Definition first_version (s : string) : option string :=
  match span_digits (from_first_digit s) with
  | (EmptyString, _) => None
  | (major, r1) =>
      let (minor, r2) := dot_group r1 in
      let (patch, _) := dot_group r2 in
      Some (major +:+ "." +:+ minor +:+ "." +:+ patch)
  end.

(** Modelled from the spec: best-effort coercion takes the first contiguous
    [N[.N[.N]]] substring and zero-fills the missing components; as in the
    library, the text is then parsed, so a result is always valid. *)
Definition semver_coerce (s : string) : option string :=
  match first_version s with
  | Some v => if semver_valid v then Some v else None
  | None => None
  end.

Definition semverModel : Semver :=
  {| valid := semver_valid; coerce := semver_coerce |}.

(** ** Registries given by a table *)

Definition spec_eqb (a b : PackageSpec) : bool :=
  match a, b with
  | NameAtVersion n v, NameAtVersion n' v' => String.eqb n n' && String.eqb v v'
  | BareName n, BareName n' => String.eqb n n'
  | _, _ => false
  end.

Fixpoint lookup_spec {A : Type} (s : PackageSpec) (t : list (PackageSpec * A))
    : option A :=
  match t with
  | [] => None
  | (s', a) :: t' => if spec_eqb s' s then Some a else lookup_spec s t'
  end.

Definition notFound : JsError :=
  {| code := Some "E404"; distTags := None; message := "404 Not Found" |}.

(** A registry that knows the listed manifests and answers [E404] to every
    other request; every packument names [tag] as [latest] and every tarball
    write succeeds. *)
Definition tableRegistry (t : list (PackageSpec * Manifest)) (tag : string)
    : Pacote :=
  {| pacote_manifest := fun s =>
       match lookup_spec s t with
       | Some m => Fulfilled m
       | None => Rejected notFound
       end;
     pacote_packument := fun _ => Fulfilled {| dist_tags := {| latest := Some tag |} |};
     pacote_tarball_toFile := fun _ _ => None;
     packumentRejectsFirst := false |}.

Definition package (n v : string) (deps : Obj) : Manifest :=
  {| name := n; version := v; dependencies := Some deps;
     devDependencies := None; peerDependencies := None;
     optionalDependencies := None; isLatest := None |}.

(** The root manifest the command line builds: only [dependencies]. *)
Definition rootManifest (deps : Obj) : Manifest :=
  package EmptyString EmptyString deps.

(** ** Notions used in the statements *)

(** A table read as a JS object has one property per name. *)
Definition unique_names (t : option Obj) : Prop := NoDup (obj_keys (default [] t)).

Definition or_else (a b : option string) : option string :=
  match a with Some _ => a | None => b end.

(** The range a category contributes for [k] when its flag includes it. *)
Definition contributes (flag : bool) (t : option Obj) (k : string) : option string :=
  if flag then obj_get k (default [] t) else None.

(** The merge order of the code: optional over peer over dev over runtime. *)
Definition mergeOrderValue (manifest : Manifest) (options : Options) (k : string)
    : option string :=
  or_else (contributes (optional options) (optionalDependencies manifest) k)
    (or_else (contributes (peer options) (peerDependencies manifest) k)
       (or_else (contributes (dev options) (devDependencies manifest) k)
          (contributes true (dependencies manifest) k))).

(** The precedence as the specification words it: dev over peer over
    optional over runtime. *)
Definition specOrderValue (manifest : Manifest) (options : Options) (k : string)
    : option string :=
  or_else (contributes (dev options) (devDependencies manifest) k)
    (or_else (contributes (peer options) (peerDependencies manifest) k)
       (or_else (contributes (optional options) (optionalDependencies manifest) k)
          (contributes true (dependencies manifest) k))).

(** The name a spec asks for. *)
Definition spec_name (s : PackageSpec) : string :=
  match s with NameAtVersion n _ => n | BareName n => n end.

(** The registry is a dependency graph: a request for a package is answered
    with a manifest of that package. *)
Definition answersByName (pacote : Pacote) : Prop :=
  forall s m, pacote_manifest pacote s = Fulfilled m -> name m = spec_name s.

(** Every manifest the registry can return is one of [universe]. *)
Definition finiteRegistry (pacote : Pacote) (universe : list (string * string))
    : Prop :=
  forall s m, pacote_manifest pacote s = Fulfilled m -> key m ∈ universe.

(** How many pairs of [universe] are not yet in the visited set. *)
Definition unvisited (universe : list (string * string))
    (visited : gset (string * string)) : nat :=
  length (filter (fun k => k ∉ visited) universe).

(** The five option fields the resolver only reads. *)
Definition sameSettings (o o' : Options) : Prop :=
  dev o = dev o' /\ peer o = peer o' /\ optional o = optional o' /\
  registry o = registry o' /\ logger o = logger o'.

(** Every character of [s] satisfies [p]. *)
Fixpoint all_chars (p : ascii -> bool) (s : string) : bool :=
  match s with
  | EmptyString => true
  | String c s' => p c && all_chars p s'
  end.

Definition version_char (c : ascii) : bool :=
  is_ident_char c || Ascii.eqb c ".".

(** ** Example data *)

Definition collidingManifest : Manifest :=
  {| name := "app"; version := "1.0.0";
     dependencies := Some [("x", "0.1.0")];
     devDependencies := Some [("x", "1.0.0")];
     peerDependencies := None;
     optionalDependencies := Some [("x", "2.0.0")];
     isLatest := None |}.

Definition allCategories : Options :=
  {| dev := true; peer := true; optional := true; registry := None;
     logger := false; depth := None; progress := None |}.


(** The registry has no [x@9.9.9] and says so with [ETARGET], naming
    [1.0.0] as [latest]. *)
Definition targetMissing : JsError :=
  {| code := Some "ETARGET"; distTags := Some {| latest := Some "1.0.0" |};
     message := "No matching version found for x@9.9.9" |}.

Definition fallbackRegistry : Pacote :=
  {| pacote_manifest := fun s =>
       if spec_eqb s (NameAtVersion "x" "9.9.9") then Rejected targetMissing
       else if spec_eqb s (NameAtVersion "x" "1.0.0")
            then Fulfilled (package "x" "1.0.0" [])
            else Rejected notFound;
     pacote_packument := fun _ =>
       Fulfilled {| dist_tags := {| latest := Some "1.0.0" |} |};
     pacote_tarball_toFile := fun _ _ => None;
     packumentRejectsFirst := false |}.

Definition networkDown : JsError :=
  {| code := Some "ECONNRESET"; distTags := None; message := "socket hang up" |}.

(** A registry that serves the manifest [a@1.0.0] but whose packument
    request fails. *)
Definition noPackumentRegistry : Pacote :=
  {| pacote_manifest := fun s =>
       if spec_eqb s (NameAtVersion "a" "1.0.0")
       then Fulfilled (package "a" "1.0.0" [])
       else Rejected notFound;
     pacote_packument := fun _ => Rejected networkDown;
     pacote_tarball_toFile := fun _ _ => None;
     packumentRejectsFirst := false |}.

Definition plainOptions : Options := freshOptions false false false None true.

Definition diskFull : JsError :=
  {| code := Some "ENOSPC"; distTags := None;
     message := "ENOSPC: no space left on device" |}.

(** A registry whose tarball of [bad@1.0.0] cannot be written; every other
    tarball is written. *)
Definition failingWrites : Pacote :=
  {| pacote_manifest := fun _ => Rejected notFound;
     pacote_packument := fun _ => Rejected notFound;
     pacote_tarball_toFile := fun s _ =>
       if spec_eqb s (NameAtVersion "bad" "1.0.0") then Some diskFull else None;
     packumentRejectsFirst := false |}.

Definition twoPackages : list Resolved :=
  [ {| r_name := "bad"; r_version := "1.0.0"; r_isLatest := Some false |};
    {| r_name := "@scope/foo"; r_version := "1.2.3"; r_isLatest := Some true |} ].

Definition cachingDownload : DownloadOptions :=
  {| useCache := true; destFolder := Some "destination"; dl_registry := None;
     dl_logger := true |}.

Definition emptyDownloadEnv : DownloadEnv :=
  {| cache := ∅; counter := 0; dl_logged := []; dl_console := [] |}.

(** The request [downloadPackages] sends for the element [p]. *)
Definition requestFor (options : DownloadOptions) (p : Resolved) : PackageSpec * string :=
  tarballRequest (r_name p) (r_version p) (tarballOptionsFor options p).

(** Whether the tarball of [p] is fetched and written. *)
Definition written (pacote : Pacote) (options : DownloadOptions) (p : Resolved) : bool :=
  match pacote_tarball_toFile pacote (fst (requestFor options p))
                              (snd (requestFor options p)) with
  | None => true
  | Some _ => false
  end.

(** What a call of the resolver does to the counters of the options object,
    stated for an object whose [depth] is already a number: the settings
    are kept, [depth] has grown by the number of emitted elements, and, when
    [depth] started non-negative, a [progress] that is already a number
    (with zero written [0]) is what it was and every logger event of the call
    carries it. *)
Definition countersAfter (env : Env) (out : list Resolved) (env' : Env) : Prop :=
  sameSettings (options env) (options env') /\
  (is_Some (progress (options env)) -> is_Some (progress (options env'))) /\
  (forall d, depth (options env) = Some d ->
     depth (options env') = Some (d + Z.of_nat (length out))%Z) /\
  (forall d q, depth (options env) = Some d -> (0 <= d)%Z ->
     progress (options env) = Some q -> frac_or0 (Some q) = q ->
     progress (options env') = Some q /\
     exists events, logged env' = logged env ++ events /\
                    Forall (fun ev => snd ev = q) events).

(** One root edge whose package has no dependencies. *)
Definition singleRegistry : Pacote :=
  tableRegistry [ (NameAtVersion "a" "1.0.0", package "a" "1.0.0" []) ] "1.0.0".

(** What a call of the resolver does to the visited set: it only grows,
    none of the emitted pairs was in the set before the call and all of them
    are in it afterwards; the emitted pairs are pairwise distinct when the
    manifests kept for one parent always are ([distinctSiblings]). *)
Definition visitsAfter (distinctSiblings : Prop) (env : Env) (out : list Resolved)
    (env' : Env) : Prop :=
  resolvedPackages env ⊆ resolvedPackages env' /\
  (distinctSiblings -> NoDup (r_key <$> out)) /\
  (forall k, k ∈ r_key <$> out ->
     (k ∉ resolvedPackages env) /\ (k ∈ resolvedPackages env')).

(** The cycle [a@1.0.0 -> b@1.0.0 -> a@1.0.0]. *)
Definition cycleRegistry : Pacote :=
  tableRegistry
    [ (NameAtVersion "a" "1.0.0", package "a" "1.0.0" [("b", "1.0.0")]);
      (NameAtVersion "b" "1.0.0", package "b" "1.0.0" [("a", "1.0.0")]) ]
    "1.0.0".

Definition cycleUniverse : list (string * string) :=
  [ ("a", "1.0.0"); ("b", "1.0.0") ].

(** Two parents [p] and [q] that ask for [c] with different ranges, both of
    which the registry resolves to [c@1.0.5]. *)
Definition diamondRegistry : Pacote :=
  tableRegistry
    [ (NameAtVersion "p" "1.0.0", package "p" "1.0.0" [("c", "^1.0.0")]);
      (NameAtVersion "q" "1.0.0", package "q" "1.0.0" [("c", "~1.0.1")]);
      (NameAtVersion "c" "^1.0.0", package "c" "1.0.5" []);
      (NameAtVersion "c" "~1.0.1", package "c" "1.0.5" []) ]
    "1.0.5".

(** A registry that answers the request for [b@^1.0.0] with the manifest
    of another package, [a@1.0.0]. *)
Definition aliasRegistry : Pacote :=
  tableRegistry
    [ (NameAtVersion "a" "1.0.0", package "a" "1.0.0" []);
      (NameAtVersion "b" "^1.0.0", package "a" "1.0.0" []) ]
    "1.0.0".

(** Whether every entry of a table is filed under the name of its manifest. *)
Definition filedByName (t : list (PackageSpec * Manifest)) : bool :=
  forallb (fun sm => String.eqb (name (snd sm)) (spec_name (fst sm))) t.

(** * The rest of the pipeline: seeds, top packages, all versions *)


From Stdlib Require DecimalString.

(** ** getNpmTopPackages ([lib/npm-top.js]) *)

Definition CHUNK_SIZE : Z := 250.

(** One element of [data.objects] in a search response; the score is kept
    as the JSON text it arrived as. *)
Record SearchObject := {
  package_name : string;
  package_version : string;
  score : string
}.

Record TopPackage := {
  top_name : string;
  top_version : string;
  top_score : string
}.

Definition newPackage (obj : SearchObject) : TopPackage :=
  {| top_name := package_name obj; top_version := package_version obj;
     top_score := score obj |}.

(** [`${n}`] for an integer. *)
Definition decimal (n : Z) : string :=
  DecimalString.NilZero.string_of_int (Z.to_int n).

(** [Math.ceil(a / b)] for integers [a] and a positive integer [b]. *)
Definition ceil_div (a b : Z) : Z := (- ((- a) / b))%Z.

(** What a call did: how it settled, the [(size, from)] pairs of the
    search requests it sent, and what the logger received. *)
Record TopRun := {
  top_result : Settled (list TopPackage);
  top_requests : list (Z * Z);
  top_logged : list (string * Q)
}.

(** The [for] loop from [index] on, [iterations] rounds of it; a failed
    request rejects the call ([await] without [catch]). *)
Fixpoint topPages (search : Z -> Z -> Settled (list SearchObject))
    (logs : bool) (packagesQuantity chunks lastChunk : Z)
    (iterations : nat) (index : Z) (packages : list TopPackage) : TopRun :=
  match iterations with
  | O => {| top_result := Fulfilled packages; top_requests := []; top_logged := [] |}
  | S iterations' =>
      let size :=
        if (index <? chunks)%Z || (lastChunk =? 0)%Z then CHUNK_SIZE else lastChunk in
      let from := ((index - 1) * CHUNK_SIZE)%Z in
      match search size from with
      | Rejected error =>
          {| top_result := Rejected error; top_requests := [(size, from)];
             top_logged := [] |}
      | Fulfilled objects =>
          let packages' := packages ++ (newPackage <$> objects) in
          let percent :=
            Qred (Qdiv (inject_Z (Z.of_nat (length packages')))
                       (inject_Z packagesQuantity)) in
          let rest :=
            topPages search logs packagesQuantity chunks lastChunk iterations'
                     (index + 1)%Z packages' in
          {| top_result := top_result rest;
             top_requests := (size, from) :: top_requests rest;
             top_logged :=
               if logs
               then ("Fetch top " +:+ decimal packagesQuantity +:+ " npm packages...",
                     percent) :: top_logged rest
               else top_logged rest |}
      end
  end.

(** [quantity] is an integer (the command line parses it with [parseInt]);
    [None] is an omitted argument, which defaults to 1000. *)
Definition getNpmTopPackages (search : Z -> Z -> Settled (list SearchObject))
    (quantity : option Z) (logs : bool) : TopRun :=
  let packagesQuantity := Z.min (default 1000%Z quantity) 5250 in
  let chunks := ceil_div packagesQuantity CHUNK_SIZE in
  let lastChunk := Z.rem packagesQuantity CHUNK_SIZE in
  topPages search logs packagesQuantity chunks lastChunk (Z.to_nat chunks) 1 [].

(** ** The seeds of the [fetch] command *)

(** [s.split(c)] for a one-character separator. *)
Fixpoint split (c : ascii) (s : string) : list string :=
  match s with
  | EmptyString => [EmptyString]
  | String a s' =>
      if Ascii.eqb a c then EmptyString :: split c s'
      else match split c s' with
           | piece :: pieces => String a piece :: pieces
           | [] => [String a EmptyString]
           end
  end.

(** [s.startsWith(c)] for a one-character prefix. *)
Definition startsWith (c : ascii) (s : string) : bool :=
  match s with
  | String a _ => Ascii.eqb a c
  | EmptyString => false
  end.

(** The body of the [reduce] callback up to the assignment: the name and
    the version ([undefined] when the seed has none) of one seed. *)
Definition parsePackage (currPackage : string) : string * option string :=
  if startsWith "@" currPackage then
    let parts := drop 1 (split "@" currPackage) in
    ("@" +:+ template_of (parts !! 0), parts !! 1)
  else
    let parts := split "@" currPackage in
    (template_of (parts !! 0), parts !! 1).

(** [dependencies[k] = v] on an object literal, for a string [v]: the name
    [__proto__] is the accessor of the prototype, which ignores a string, so
    that no property is made for it. *)
Definition assign_property (k v : string) (o : Obj) : Obj :=
  if String.eqb k "__proto__" then o else obj_set k v o.

(** [packages.reduce(..., {})]: [dependencies[name] = version || 'latest']. *)
Definition seedDependencies (packages : list string) : Obj :=
  fold_left
    (fun dependencies currPackage =>
       assign_property (fst (parsePackage currPackage))
                       (str_or (snd (parsePackage currPackage)) "latest")
                       dependencies)
    packages [].

(** [topPackages.reduce(..., {})]: [dependencies[name] = version]. *)
Definition topDependencies (topPackages : list TopPackage) : Obj :=
  fold_left
    (fun dependencies p => assign_property (top_name p) (top_version p) dependencies)
    topPackages [].

(** ** downloadAllVersionsOf: the unique packages *)

(** [o[k] = v] on an object with values of any type. *)
Fixpoint entry_set {A : Type} (k : string) (v : A) (o : list (string * A))
    : list (string * A) :=
  match o with
  | [] => [(k, v)]
  | (k', v') :: o' =>
      if String.eqb k' k then (k', v) :: o' else (k', v') :: entry_set k v o'
  end.

(** [Object.fromEntries(entries)] *)
Definition fromEntries {A : Type} (entries : list (string * A)) : list (string * A) :=
  fold_left (fun o kv => entry_set (fst kv) (snd kv) o) entries [].

(** [p.name + '@' + p.version] *)
Definition packageKey (p : Resolved) : string := r_name p +:+ "@" +:+ r_version p.

(** [Object.values(Object.fromEntries(allPackages.map(p => [key, p])))] *)
Definition uniqPackages (allPackages : list Resolved) : list Resolved :=
  snd <$> fromEntries ((fun p => (packageKey p, p)) <$> allPackages).

(** ** Notions used in the statements about the rest of the pipeline *)

(** The element the resolver emits for a manifest. *)
Definition emitted (m : Manifest) : Resolved :=
  {| r_name := name m; r_version := version m; r_isLatest := isLatest m |}.

(** [r] is a manifest the registry served, with [isLatest] set on it. *)
Definition servedBy (pacote : Pacote) (r : Resolved) : Prop :=
  exists s m b, pacote_manifest pacote s = Fulfilled m /\
                r = emitted (withIsLatest m b).

(** What a call of the resolver leaves behind: the console has only grown,
    the visited set has gained exactly the emitted pairs, and every emitted
    element was served by the registry. *)
Definition leavesBehind (pacote : Pacote) (env : Env) (out : list Resolved)
    (env' : Env) : Prop :=
  (exists lines, console env' = console env ++ lines) /\
  resolvedPackages env' = resolvedPackages env ∪ list_to_set (r_key <$> out) /\
  Forall (servedBy pacote) out.





(** The percent the downloader reports after its [k]-th success out of
    [total]. *)
Definition percentOf (total k : nat) : Q :=
  Qred (Qmult (Qmake 1 (Pos.of_nat total)) (inject_Z (Z.of_nat k))).

(** Whether a download was fulfilled. *)
Definition fulfilled {A : Type} (s : Settled A) : bool :=
  match s with Fulfilled _ => true | Rejected _ => false end.

(** A search service that never fails. *)
Definition alwaysAnswers (search : Z -> Z -> Settled (list SearchObject)) : Prop :=
  forall size from, exists objects, search size from = Fulfilled objects.

(** A search service that always answers, with exactly the requested number
    of objects. *)
Definition fullPages (search : Z -> Z -> Settled (list SearchObject)) : Prop :=
  forall size from, exists objects,
    search size from = Fulfilled objects /\
    ((0 <= size)%Z -> Z.of_nat (length objects) = size).

(** The packages a fulfilled search request contributes. *)
Definition pageOf (search : Z -> Z -> Settled (list SearchObject)) (rq : Z * Z)
    : list TopPackage :=
  match search (fst rq) (snd rq) with
  | Fulfilled objects => newPackage <$> objects
  | Rejected _ => []
  end.

Definition sumZ (l : list Z) : Z := fold_right Z.add 0%Z l.

(** The text of a seed on the command line: an optional scope sign, a name
    without it, and an optional version after an [@]. *)
Definition seedText (scoped : bool) (base : string) (version : option string)
    : string :=
  (if scoped then "@" else EmptyString) +:+ base +:+
  match version with Some v => "@" +:+ v | None => EmptyString end.

(** The keys of [ks] that are not in [seen], each at its first appearance. *)
Fixpoint firstOccurrences (seen ks : list string) : list string :=
  match ks with
  | [] => []
  | k :: ks' =>
      if bool_decide (k ∈ seen) then firstOccurrences seen ks'
      else k :: firstOccurrences (seen ++ [k]) ks'
  end.

(** ** Example data for the rest of the pipeline *)

Definition anyObject : SearchObject :=
  {| package_name := "pkg"; package_version := "1.0.0"; score := "{}" |}.

(** A search service that returns [size] copies of one object. *)
Definition constantSearch (size from : Z) : Settled (list SearchObject) :=
  Fulfilled (replicate (Z.to_nat size) anyObject).

Definition threeResolved : list Resolved :=
  [ {| r_name := "a"; r_version := "1.0.0"; r_isLatest := Some false |};
    {| r_name := "b"; r_version := "2.0.0"; r_isLatest := Some true |};
    {| r_name := "a"; r_version := "1.0.0"; r_isLatest := Some true |} ].
(** ** Property tables: lookup after assignment and merge *)

Lemma obj_get_set (k k' v : string) (o : Obj) :
  obj_get k (obj_set k' v o) = if String.eqb k' k then Some v else obj_get k o.
Proof.
  induction o as [|[k1 v1] o IH]; simpl.
  - reflexivity.
  - destruct (String.eqb k1 k') eqn:E1; simpl.
    + apply String.eqb_eq in E1. subst k1.
      destruct (String.eqb k' k); reflexivity.
    + rewrite IH.
      destruct (String.eqb k1 k) eqn:E2, (String.eqb k' k) eqn:E3; try reflexivity.
      apply String.eqb_eq in E2, E3. subst. rewrite String.eqb_refl in E1.
      discriminate.
Qed.

Lemma obj_get_None (k : string) (o : Obj) :
  obj_get k o = None <-> k ∉ obj_keys o.
Proof.
  unfold obj_keys. induction o as [|[k1 v1] o IH]; csimpl.
  - split; [intros _; apply not_elem_of_nil | reflexivity].
  - rewrite not_elem_of_cons. destruct (String.eqb k1 k) eqn:E.
    + apply String.eqb_eq in E. subst. split; [discriminate | intros [? _]; congruence].
    + apply String.eqb_neq in E. rewrite IH. csimpl. split; [split|]; [congruence| |]; tauto.
Qed.

Lemma obj_keys_set (k v : string) (o : Obj) :
  obj_keys (obj_set k v o) =
  if bool_decide (k ∈ obj_keys o) then obj_keys o else obj_keys o ++ [k].
Proof.
  unfold obj_keys. induction o as [|[k1 v1] o IH]; csimpl.
  - reflexivity.
  - destruct (String.eqb k1 k) eqn:E; csimpl.
    + apply String.eqb_eq in E. subst.
      rewrite bool_decide_eq_true_2; [reflexivity | left].
    + apply String.eqb_neq in E. rewrite IH.
      destruct (bool_decide (k ∈ o.*1)) eqn:D.
      * apply bool_decide_eq_true_1 in D.
        rewrite bool_decide_eq_true_2; [reflexivity | by right].
      * apply bool_decide_eq_false_1 in D.
        rewrite bool_decide_eq_false_2; [reflexivity|].
        rewrite elem_of_cons. intros [?|?]; [congruence | done].
Qed.

Lemma obj_set_NoDup (k v : string) (o : Obj) :
  NoDup (obj_keys o) -> NoDup (obj_keys (obj_set k v o)).
Proof.
  intros Ho. rewrite obj_keys_set. case_bool_decide; [done|].
  apply NoDup_app. split; [done|]. split; [|apply NoDup_singleton].
  intros x Hx Hk. apply list_elem_of_singleton in Hk. by subst.
Qed.

Lemma merge_into_NoDup (source dest : Obj) :
  NoDup (obj_keys dest) -> NoDup (obj_keys (merge_into dest source)).
Proof.
  unfold merge_into. revert dest.
  induction source as [|[k v] s IH]; intros dest Hd; csimpl; [done|].
  apply IH, obj_set_NoDup, Hd.
Qed.

Lemma obj_get_merge_into_absent (k : string) (source dest : Obj) :
  k ∉ obj_keys source -> obj_get k (merge_into dest source) = obj_get k dest.
Proof.
  unfold merge_into, obj_keys. revert dest.
  induction source as [|[k1 v1] s IH]; intros dest Hk; csimpl; [done|].
  csimpl in Hk. apply not_elem_of_cons in Hk as [Hne Hk].
  rewrite IH by done. csimpl. rewrite obj_get_set.
  destruct (String.eqb k1 k) eqn:E; [|done].
  apply String.eqb_eq in E. congruence.
Qed.

Lemma obj_get_merge_into (k : string) (source dest : Obj) :
  NoDup (obj_keys source) ->
  obj_get k (merge_into dest source) = or_else (obj_get k source) (obj_get k dest).
Proof.
  revert dest. induction source as [|[k1 v1] s IH]; intros dest Hs; [done|].
  unfold obj_keys in Hs. csimpl in Hs. apply NoDup_cons in Hs as [Hk1 Hs].
  csimpl. destruct (String.eqb k1 k) eqn:E.
  - apply String.eqb_eq in E. subst k1.
    change (merge_into dest ((k, v1) :: s)) with (merge_into (obj_set k v1 dest) s).
    rewrite obj_get_merge_into_absent by done.
    rewrite obj_get_set, String.eqb_refl. done.
  - change (merge_into dest ((k1, v1) :: s)) with (merge_into (obj_set k1 v1 dest) s).
    rewrite IH by done. rewrite obj_get_set, E. done.
Qed.

Lemma merge_into_empty_unique (o : Obj) :
  NoDup (obj_keys o) -> forall k, obj_get k (merge_into [] o) = obj_get k o.
Proof.
  intros Ho k. rewrite obj_get_merge_into by done. simpl.
  destruct (obj_get k o); done.
Qed.

Lemma mergedPackages_NoDup (manifest : Manifest) (options : Options) :
  NoDup (obj_keys (mergedPackages manifest options)).
Proof.
  unfold mergedPackages, merge. simpl.
  assert (Hstep : forall (src : option Obj) (o : Obj), NoDup (obj_keys o) ->
            NoDup (obj_keys match src with Some s => merge_into o s | None => o end)).
  { intros [s|] o Ho; [by apply merge_into_NoDup | done]. }
  do 3 apply Hstep. apply merge_into_NoDup. apply NoDup_nil_2.
Qed.

Lemma merge_step_get (k : string) (flag : bool) (t : option Obj) (o : Obj) :
  unique_names t ->
  obj_get k (match (if flag then t else Some []) with
             | Some s => merge_into o s
             | None => o
             end)
  = or_else (contributes flag t k) (obj_get k o).
Proof.
  unfold unique_names, contributes. intros Ht.
  destruct flag; [|done].
  destruct t as [s|]; simpl in *; [|done].
  by apply obj_get_merge_into.
Qed.

Lemma obj_get_is_Some (k : string) (o : Obj) :
  is_Some (obj_get k o) <-> k ∈ obj_keys o.
Proof.
  rewrite <- not_eq_None_Some, obj_get_None.
  destruct (decide (k ∈ obj_keys o)); tauto.
Qed.

Lemma or_else_is_Some (a b : option string) :
  is_Some (or_else a b) <-> is_Some a \/ is_Some b.
Proof.
  destruct a as [x|]; simpl.
  - split; [by left | by eexists].
  - split; [by right | intros [[? [=]]|]; done].
Qed.

Lemma contributes_is_Some (flag : bool) (t : option Obj) (k : string) :
  is_Some (contributes flag t k) <-> flag = true /\ k ∈ obj_keys (default [] t).
Proof.
  unfold contributes. destruct flag.
  - rewrite obj_get_is_Some. tauto.
  - split; [intros [? [=]] | intros [[=] _]].
Qed.

(** C3 (as amended): the dependency map is the union of [dependencies] and
    the option-gated [devDependencies], [peerDependencies] and
    [optionalDependencies]; when a name occurs in several included
    categories the later one in the merge order wins, that is optional over
    peer over dev over runtime.  The merged map has one property per name. *)
Theorem mergedPackages_merge_order (manifest : Manifest) (options : Options) :
  unique_names (dependencies manifest) ->
  unique_names (devDependencies manifest) ->
  unique_names (peerDependencies manifest) ->
  unique_names (optionalDependencies manifest) ->
  NoDup (obj_keys (mergedPackages manifest options)) /\
  (forall k, obj_get k (mergedPackages manifest options)
             = mergeOrderValue manifest options k) /\
  (forall k, k ∈ obj_keys (mergedPackages manifest options) <->
     k ∈ obj_keys (default [] (dependencies manifest)) \/
     (dev options = true /\ k ∈ obj_keys (default [] (devDependencies manifest))) \/
     (peer options = true /\ k ∈ obj_keys (default [] (peerDependencies manifest))) \/
     (optional options = true /\
      k ∈ obj_keys (default [] (optionalDependencies manifest)))).
Proof.
  intros Hd Hv Hp Ho.
  assert (Hget : forall k, obj_get k (mergedPackages manifest options)
                           = mergeOrderValue manifest options k).
  { intros k. unfold mergedPackages, merge, mergeOrderValue. simpl.
    rewrite !merge_step_get by done.
    do 3 f_equal. unfold contributes. by apply merge_into_empty_unique. }
  split; [apply mergedPackages_NoDup|]. split; [exact Hget|].
  intros k. rewrite <- obj_get_is_Some, Hget. unfold mergeOrderValue.
  rewrite !or_else_is_Some, !contributes_is_Some. tauto.
Qed.

Lemma mergedPackages_merge_order_witness :
  obj_get "x" (mergedPackages collidingManifest allCategories) = Some "2.0.0".
Proof.
  destruct (mergedPackages_merge_order collidingManifest allCategories) as (_ & H & _).
  - apply NoDup_singleton.
  - apply NoDup_singleton.
  - apply NoDup_nil_2.
  - apply NoDup_singleton.
  - rewrite H. reflexivity.
Defined.

(** C3 as the specification words it (dev over peer over optional over
    runtime) fails: for a name listed by both [devDependencies] and
    [optionalDependencies], the merged map holds the optional range. *)
Lemma dev_does_not_win :
  contributes true (devDependencies collidingManifest) "x" = Some "1.0.0" /\
  specOrderValue collidingManifest allCategories "x" = Some "1.0.0" /\
  obj_get "x" (mergedPackages collidingManifest allCategories) = Some "2.0.0" /\
  obj_get "x" (mergedPackages collidingManifest allCategories)
  <> specOrderValue collidingManifest allCategories "x".
Proof. repeat split; vm_compute; (reflexivity || discriminate). Qed.

(** ** String replacement *)

Lemma replace_absent (c : ascii) (r s : string) :
  occurs c s = false -> replace c r s = s.
Proof.
  induction s as [|a s IH]; simpl; [done|].
  destruct (Ascii.eqb a c); simpl; [discriminate|].
  intros Hs. by rewrite IH.
Qed.

Lemma replace_first (c : ascii) (r before rest : string) :
  occurs c before = false ->
  replace c r (before +:+ String c rest) = before +:+ r +:+ rest.
Proof.
  induction before as [|a s IH]; simpl.
  - intros _. by rewrite Ascii.eqb_refl.
  - destruct (Ascii.eqb a c); simpl; [discriminate|].
    intros Hs. by rewrite IH.
Qed.

Lemma cleanVersion_plain (range : string) :
  occurs "^" range = false -> occurs "~" range = false ->
  cleanVersion range = range.
Proof.
  intros Hc Ht. unfold cleanVersion.
  rewrite (replace_absent "^") by done. by apply replace_absent.
Qed.

Lemma cleanVersion_caret (v : string) :
  occurs "~" v = false -> cleanVersion (String "^" v) = v.
Proof. intros Ht. unfold cleanVersion. simpl. by apply replace_absent. Qed.

Lemma cleanVersion_tilde (v : string) :
  occurs "^" v = false -> cleanVersion (String "~" v) = v.
Proof.
  intros Hc. unfold cleanVersion. simpl. by rewrite replace_absent.
Qed.

(** ** The reference semver implementation *)

Lemma all_chars_occurs (p : ascii -> bool) (c : ascii) (s : string) :
  all_chars p s = true -> p c = false -> occurs c s = false.
Proof.
  intros Hs Hc. induction s as [|a s IH]; simpl in *; [done|].
  apply andb_true_iff in Hs as [Ha Hs]. rewrite IH by done.
  destruct (Ascii.eqb a c) eqn:E; [|done].
  apply Ascii.eqb_eq in E. congruence.
Qed.

Lemma is_digit_version_char (c : ascii) : is_digit c = true -> version_char c = true.
Proof. unfold version_char, is_ident_char. intros ->. done. Qed.

Lemma span_digits_chars (s d r : string) :
  span_digits s = (d, r) ->
  all_chars version_char d = true /\
  (all_chars version_char r = true -> all_chars version_char s = true).
Proof.
  revert d r. induction s as [|c s IH]; simpl; intros d r Hs.
  - by inversion Hs.
  - destruct (is_digit c) eqn:Hc.
    + destruct (span_digits s) as [d' r'] eqn:Hs'. inversion Hs; subst.
      destruct (IH d' r eq_refl) as [Hd Hr]. simpl.
      rewrite (is_digit_version_char c Hc). simpl. split; [done|].
      intros Hall. by apply Hr.
    + inversion Hs; subst. simpl. done.
Qed.

Lemma numeric_chars (s d r : string) :
  numeric s = Some (d, r) ->
  all_chars version_char r = true -> all_chars version_char s = true.
Proof.
  unfold numeric. destruct (span_digits s) as [d' r'] eqn:Hs.
  intros Hn. apply span_digits_chars in Hs as [_ Hr].
  assert (r' = r) as ->; [|done].
  destruct d' as [|a [|b d']]; try discriminate; [by inversion Hn|].
  destruct (Ascii.eqb a "0"); [discriminate | by inversion Hn].
Qed.

Lemma expect_chars (c : ascii) (s r : string) :
  expect c s = Some r -> version_char c = true ->
  all_chars version_char r = true -> all_chars version_char s = true.
Proof.
  unfold expect. destruct s as [|a s]; [discriminate|].
  destruct (Ascii.eqb a c) eqn:E; [|discriminate].
  apply Ascii.eqb_eq in E. subst a. intros [= ->] Hc Hr. simpl. by rewrite Hc.
Qed.

Lemma identifiers_chars (fresh : bool) (s : string) :
  identifiers fresh s = true -> all_chars version_char s = true.
Proof.
  revert fresh. induction s as [|c s IH]; simpl; intros fresh Hs; [done|].
  unfold version_char at 1.
  destruct (Ascii.eqb c ".") eqn:E.
  - apply andb_true_iff in Hs as [_ Hs]. rewrite orb_true_r. simpl. by eapply IH.
  - apply andb_true_iff in Hs as [Hc Hs]. rewrite Hc. simpl. by eapply IH.
Qed.

Lemma semver_valid_chars (s : string) :
  semver_valid s = true -> all_chars version_char s = true.
Proof.
  unfold semver_valid. intros Hs.
  destruct (numeric s) as [[d1 r]|] eqn:H1; [|discriminate].
  destruct (expect "." r) as [r1|] eqn:E1; [|discriminate].
  destruct (numeric r1) as [[d2 r']|] eqn:H2; [|discriminate].
  destruct (expect "." r') as [r2|] eqn:E2; [|discriminate].
  destruct (numeric r2) as [[d3 r3]|] eqn:H3; [|discriminate].
  apply (numeric_chars _ _ _ H1), (expect_chars _ _ _ E1); [done|].
  apply (numeric_chars _ _ _ H2), (expect_chars _ _ _ E2); [done|].
  apply (numeric_chars _ _ _ H3).
  destruct r3 as [|c3 r3]; [done|].
  destruct (expect "-" (String c3 r3)) as [pre|] eqn:E3; [|discriminate].
  apply (expect_chars _ _ _ E3); [done|]. by eapply identifiers_chars.
Qed.

Lemma semver_coerce_valid (s v : string) :
  semver_coerce s = Some v -> semver_valid v = true.
Proof.
  unfold semver_coerce. destruct (first_version s) as [w|]; [|discriminate].
  destruct (semver_valid w) eqn:Hw; [|discriminate]. by intros [= <-].
Qed.

Lemma semver_valid_clean (v : string) :
  semver_valid v = true -> cleanVersion v = v.
Proof.
  intros Hv. apply semver_valid_chars in Hv.
  apply cleanVersion_plain; by eapply all_chars_occurs.
Qed.

(** With the reference implementation a query version is a fixed point:
    coercing it again changes nothing. *)
Lemma queryVersion_idempotent (range : string) :
  @queryVersion semverModel (@queryVersion semverModel range)
  = @queryVersion semverModel range.
Proof.
  unfold queryVersion at 2 3. simpl.
  destruct (semver_valid (cleanVersion range)) eqn:Hv.
  - unfold queryVersion. simpl. by rewrite Hv.
  - destruct (semver_coerce (cleanVersion range)) as [v|] eqn:Hc.
    + apply semver_coerce_valid in Hc. unfold queryVersion. simpl.
      by rewrite (semver_valid_clean v Hc), Hc.
    + reflexivity.
Qed.

(** C4 (as amended): the coercer removes the first [^] and the first [~] of
    the range to obtain a test string (for a range with one leading [^] or
    [~] that is the range without it).  If the test string is a valid
    concrete semver, the range itself is returned unchanged, marker
    included; otherwise the test string is coerced and the coerced version is
    returned; if the coercion fails the literal [latest] is returned.  The
    function is total.  With the reference semver implementation, [1.2]
    becomes [1.2.0], [^1.2.3] stays [^1.2.3], a coerced result is always a
    valid concrete version and [garbage] becomes [latest]. *)
Theorem queryVersion_cases `{Semver} (range : string) :
  (valid (cleanVersion range) = true -> queryVersion range = range) /\
  (valid (cleanVersion range) = false ->
     forall v, coerce (cleanVersion range) = Some v -> queryVersion range = v) /\
  (valid (cleanVersion range) = false ->
     coerce (cleanVersion range) = None -> queryVersion range = "latest") /\
  (occurs "^" range = false -> occurs "~" range = false ->
     cleanVersion range = range /\
     cleanVersion (String "^" range) = range /\
     cleanVersion (String "~" range) = range) /\
  (forall v, semver_coerce (cleanVersion range) = Some v -> semver_valid v = true) /\
  @queryVersion semverModel "1.2" = "1.2.0" /\
  @queryVersion semverModel "^1.2.3" = "^1.2.3" /\
  @queryVersion semverModel "garbage" = "latest".
Proof.
  unfold queryVersion. repeat split.
  - by intros ->.
  - intros -> v ->. done.
  - intros -> ->. done.
  - by apply cleanVersion_plain.
  - by apply cleanVersion_caret.
  - by apply cleanVersion_tilde.
  - intros v. apply semver_coerce_valid.
Qed.

Lemma queryVersion_cases_witness :
  semver_valid (cleanVersion "~1.2") = false /\
  semver_coerce (cleanVersion "~1.2") = Some "1.2.0" /\
  @queryVersion semverModel "~1.2" = "1.2.0".
Proof.
  split; [reflexivity|]. split; [reflexivity|].
  destruct (@queryVersion_cases semverModel "~1.2") as (_ & H & _).
  apply H; reflexivity.
Defined.

(** C4 as the specification words it fails: a caret range whose stripped
    form is a valid version is returned with its caret, not stripped. *)
Lemma caret_range_not_stripped :
  cleanVersion "^1.2.3" = "1.2.3" /\
  semver_valid "1.2.3" = true /\
  @queryVersion semverModel "^1.2.3" = "^1.2.3" /\
  @queryVersion semverModel "^1.2.3" <> "1.2.3".
Proof. repeat split; vm_compute; (reflexivity || discriminate). Qed.

(** ** The registry client *)

(** The requests of a call are those of its manifest promise. *)
Lemma getPackageManifest_calls (pacote : Pacote) (packageName packageVersion : string) :
  manifestCalls (getPackageManifest pacote packageName packageVersion)
  = snd (fst (manifestWithFallback pacote packageName packageVersion)).
Proof.
  unfold getPackageManifest.
  by destruct (manifestWithFallback pacote packageName packageVersion) as [[? ?] ?].
Qed.

(** A fulfilled call returns a manifest the registry served for the
    requested name, with only [isLatest] set on it. *)
Lemma getPackageManifest_fulfilled (pacote : Pacote)
    (packageName packageVersion : string) (m' : Manifest) :
  outcome (getPackageManifest pacote packageName packageVersion) = Fulfilled m' ->
  exists s m b,
    pacote_manifest pacote s = Fulfilled m /\ spec_name s = packageName /\
    m' = withIsLatest m b.
Proof.
  unfold getPackageManifest.
  destruct (manifestWithFallback pacote packageName packageVersion)
    as [[mp calls] lines] eqn:Hm. simpl.
  assert (Hserved : forall m, mp = Fulfilled m ->
            exists s, pacote_manifest pacote s = Fulfilled m /\ spec_name s = packageName).
  { intros m ->. unfold manifestWithFallback in Hm.
    destruct (pacote_manifest pacote (NameAtVersion packageName packageVersion))
      as [m0|error] eqn:H0.
    - inversion Hm; subst. by eexists.
    - repeat case_match; inversion Hm; subst; try discriminate; by eexists. }
  destruct mp as [m|e]; simpl.
  - destruct (Hserved m eq_refl) as (s & Hs & Hn).
    destruct (negb (String.eqb packageVersion "latest")); simpl.
    + destruct (pacote_packument pacote packageName) as [p|e]; simpl;
        [|discriminate].
      intros [= <-]. exists s, m. by eexists.
    + intros [= <-]. exists s, m. by eexists.
  - destruct (negb (String.eqb packageVersion "latest")); simpl;
      [destruct (pacote_packument pacote packageName) as [p|e']; simpl|];
      discriminate.
Qed.

(** C5: when the first manifest request is rejected, the client looks at the
    error code.  [ETARGET]: exactly one more request, for the [latest] tag of
    the error's [distTags] payload, and its answer is the answer of the
    client.  [E404] for a query other than [latest]: exactly one more
    request, for the bare name (the [latest] tag), and its answer is the
    answer of the client.  [E404] for the query [latest]: no retry, a
    not-found error is surfaced.  Any other error: no retry, the error is
    surfaced unchanged.  When the packument promise does not fail, the call
    as a whole returns the manifest so obtained. *)
Theorem manifestWithFallback_cases (pacote : Pacote)
    (packageName packageVersion : string) (error : JsError) :
  pacote_manifest pacote (NameAtVersion packageName packageVersion) = Rejected error ->
  let first := NameAtVersion packageName packageVersion in
  let answer := fst (fst (manifestWithFallback pacote packageName packageVersion)) in
  let calls := manifestCalls (getPackageManifest pacote packageName packageVersion) in
  (forall tag,
     code error = Some "ETARGET" ->
     distTags error = Some {| latest := Some tag |} ->
     calls = [first; NameAtVersion packageName tag] /\
     answer = pacote_manifest pacote (NameAtVersion packageName tag)) /\
  (code error = Some "E404" -> packageVersion <> "latest" ->
     calls = [first; BareName packageName] /\
     answer = pacote_manifest pacote (BareName packageName)) /\
  (code error = Some "E404" -> packageVersion = "latest" ->
     calls = [first] /\
     answer = Rejected (Error (packageName +:+ "@latest not found"))) /\
  (code error <> Some "ETARGET" -> code error <> Some "E404" ->
     calls = [first] /\ answer = Rejected error) /\
  (forall m,
     answer = Fulfilled m ->
     (packageVersion = "latest" \/
      exists p, pacote_packument pacote packageName = Fulfilled p) ->
     exists b, outcome (getPackageManifest pacote packageName packageVersion)
               = Fulfilled (withIsLatest m b)).
Proof.
  intros Hrej first answer calls. subst first answer calls.
  rewrite getPackageManifest_calls.
  repeat split.
  - unfold manifestWithFallback. rewrite Hrej, H, H0. simpl. done.
  - unfold manifestWithFallback. rewrite Hrej, H, H0. simpl. done.
  - unfold manifestWithFallback. rewrite Hrej, H. simpl.
    apply String.eqb_neq in H0. by rewrite H0.
  - unfold manifestWithFallback. rewrite Hrej, H. simpl.
    apply String.eqb_neq in H0. by rewrite H0.
  - unfold manifestWithFallback. rewrite Hrej, H, H0. simpl. done.
  - unfold manifestWithFallback. rewrite Hrej, H, H0. simpl. done.
  - unfold manifestWithFallback. rewrite Hrej.
    rewrite !bool_decide_eq_false_2 by done. done.
  - unfold manifestWithFallback. rewrite Hrej.
    rewrite !bool_decide_eq_false_2 by done. done.
  - intros m Hm Hp. unfold getPackageManifest.
    destruct (manifestWithFallback pacote packageName packageVersion)
      as [[mp cs] lines]. simpl in Hm. subst mp. simpl.
    destruct Hp as [-> | [p Hp]].
    + simpl. by eexists.
    + rewrite Hp. destruct (negb (String.eqb packageVersion "latest")); simpl;
        by eexists.
Qed.

Lemma manifestWithFallback_cases_witness :
  pacote_manifest fallbackRegistry (NameAtVersion "x" "9.9.9") = Rejected targetMissing /\
  manifestCalls (getPackageManifest fallbackRegistry "x" "9.9.9")
  = [NameAtVersion "x" "9.9.9"; NameAtVersion "x" "1.0.0"] /\
  fst (fst (manifestWithFallback fallbackRegistry "x" "9.9.9"))
  = Fulfilled (package "x" "1.0.0" []).
Proof.
  split; [reflexivity|].
  destruct (manifestWithFallback_cases fallbackRegistry "x" "9.9.9" targetMissing
              eq_refl) as (H & _).
  destruct (H "1.0.0" eq_refl eq_refl) as [Hc Ha].
  split; [exact Hc | rewrite Ha; reflexivity].
Defined.

(** A target-missing fallback resolves to the [latest] version the error
    names: one output element [x@1.0.0]. *)
Example target_missing_fallback :
  fst <$> @resolveDependencies semverModel 2 fallbackRegistry
            (rootManifest [("x", "9.9.9")]) (freshEnv plainOptions)
  = Some [ {| r_name := "x"; r_version := "1.0.0"; r_isLatest := Some true |} ].
Proof. vm_compute. reflexivity. Qed.

(** C6 (as amended): a query for the literal [latest] sends no packument
    request and sets [isLatest] to true; any other query sends one packument
    request and sets [isLatest] to whether [dist-tags.latest] equals the
    version of the manifest obtained; when that packument request fails the
    call is rejected, and the resolver prints the error and drops the edge. *)
Theorem isLatest_determination (pacote : Pacote)
    (packageName packageVersion : string) (m : Manifest) :
  fst (fst (manifestWithFallback pacote packageName packageVersion)) = Fulfilled m ->
  let fetch := getPackageManifest pacote packageName packageVersion in
  (packageVersion = "latest" ->
     packumentCalls fetch = [] /\ outcome fetch = Fulfilled (withIsLatest m true)) /\
  (packageVersion <> "latest" ->
     packumentCalls fetch = [packageName] /\
     (forall p, pacote_packument pacote packageName = Fulfilled p ->
        outcome fetch
        = Fulfilled (withIsLatest m
                       (bool_decide (latest (dist_tags p) = Some (version m))))) /\
     (forall e, pacote_packument pacote packageName = Rejected e ->
        outcome fetch = Rejected e /\
        fst (caught fetch) = None /\
        handlerError e ∈ snd (caught fetch))).
Proof.
  intros Hm fetch. subst fetch. unfold caught, getPackageManifest.
  destruct (manifestWithFallback pacote packageName packageVersion)
    as [[mp cs] lines]. simpl in Hm. subst mp.
  split.
  - intros ->. simpl. done.
  - intros Hne. apply String.eqb_neq in Hne. rewrite Hne. simpl.
    split; [done|]. split.
    + intros p ->. done.
    + intros e ->. simpl. split; [done|]. split; [done|].
      apply elem_of_app. right. apply list_elem_of_singleton. done.
Qed.

Lemma isLatest_determination_witness :
  fst (fst (manifestWithFallback noPackumentRegistry "a" "1.0.0"))
  = Fulfilled (package "a" "1.0.0" []) /\
  outcome (getPackageManifest noPackumentRegistry "a" "1.0.0") = Rejected networkDown.
Proof.
  split; [reflexivity|].
  destruct (isLatest_determination noPackumentRegistry "a" "1.0.0"
              (package "a" "1.0.0" []) eq_refl) as [_ H].
  destruct H as (_ & _ & H); [discriminate|].
  destruct (H networkDown eq_refl) as [Ho _]. exact Ho.
Defined.

(** C6 as the specification words it fails: when the packument request
    fails, the edge does not resolve with [isLatest = false]; the resolver
    emits nothing for it. *)
Lemma packument_failure_drops_edge :
  fst <$> @resolveDependencies semverModel 2 noPackumentRegistry
            (rootManifest [("a", "1.0.0")]) (freshEnv plainOptions)
  <> Some [ {| r_name := "a"; r_version := "1.0.0"; r_isLatest := Some false |} ]
  /\
  fst <$> @resolveDependencies semverModel 2 noPackumentRegistry
            (rootManifest [("a", "1.0.0")]) (freshEnv plainOptions)
  = Some [].
Proof. split; vm_compute; [discriminate | reflexivity]. Qed.

(** ** The downloader *)

Lemma downloadPackageTarball_written (pacote : Pacote) (options : DownloadOptions)
    (p : Resolved) :
  written pacote options p = true ->
  downloadPackageTarball pacote (r_name p) (r_version p) (tarballOptionsFor options p)
  = Fulfilled {| r_name := r_name p; r_version := r_version p;
                 r_isLatest := Some (truthy (r_isLatest p)) |}.
Proof.
  unfold written, requestFor, downloadPackageTarball.
  by destruct (pacote_tarball_toFile pacote _ _).
Qed.

Lemma downloadPackageTarball_failed (pacote : Pacote) (options : DownloadOptions)
    (p : Resolved) :
  written pacote options p = false ->
  exists e,
    pacote_tarball_toFile pacote (fst (requestFor options p)) (snd (requestFor options p))
    = Some e /\
    downloadPackageTarball pacote (r_name p) (r_version p) (tarballOptionsFor options p)
    = Rejected e.
Proof.
  unfold written, requestFor, downloadPackageTarball.
  destruct (pacote_tarball_toFile pacote _ _) as [e|]; [|discriminate].
  intros _. by exists e.
Qed.


(** The handlers of a batch, run in any order over any positions: the
    cache gains exactly the keys of the written elements among them (when
    the cache is in use), and the console gains the errors of the others. *)
Lemma handlers_cache (options : DownloadOptions) (total : nat)
    (started : list (Settled Resolved)) (schedule : list nat) (e : DownloadEnv)
    (k : string * string) :
  k ∈ cache (fold_left
               (fun e i => match started !! i with
                           | Some d => chainEffect options total d e
                           | None => e
                           end) schedule e)
  <-> k ∈ cache e \/
      (useCache options = true /\
       exists i res, i ∈ schedule /\ started !! i = Some (Fulfilled res) /\
                     r_key res = k).
Proof.
  revert e. induction schedule as [|i schedule IH]; intros e; simpl.
  - split; [by left|]. intros [?|(_ & i & res & Hi & _)]; [done|].
    by apply elem_of_nil in Hi.
  - rewrite IH. clear IH. split.
    + intros [Hk | (Hu & j & res & Hj & Hs & Hr)].
      * destruct (started !! i) as [[res|err]|] eqn:Hi; simpl in Hk;
          [|by left|by left].
        destruct (useCache options) eqn:Hu; [|by left].
        unfold cache_add in Hk. apply elem_of_union in Hk as [Hk|Hk]; [|by left].
        apply elem_of_singleton in Hk. right. split; [done|].
        exists i, res. split; [left|done].
      * right. split; [done|]. exists j, res. split; [by right|done].
    + intros [Hk | (Hu & j & res & Hj & Hs & Hr)].
      * left. destruct (started !! i) as [[res|err]|]; simpl; [|done|done].
        destruct (useCache options); [|done].
        unfold cache_add. apply elem_of_union. by right.
      * apply elem_of_cons in Hj as [->|Hj].
        -- left. rewrite Hs. simpl. rewrite Hu. unfold cache_add.
           apply elem_of_union. left. apply elem_of_singleton. done.
        -- right. split; [done|]. by exists j, res.
Qed.

Lemma handlers_console (options : DownloadOptions) (total : nat)
    (started : list (Settled Resolved)) (schedule : list nat) (e : DownloadEnv)
    (i : nat) (err : JsError) :
  i ∈ schedule -> started !! i = Some (Rejected err) ->
  handlerError err ∈
    dl_console (fold_left
                  (fun e i => match started !! i with
                              | Some d => chainEffect options total d e
                              | None => e
                              end) schedule e).
Proof.
  assert (Hmono : forall sch e0 l, l ∈ dl_console e0 ->
            l ∈ dl_console (fold_left
                  (fun e i => match started !! i with
                              | Some d => chainEffect options total d e
                              | None => e
                              end) sch e0)).
  { induction sch as [|j sch IH]; intros e0 l Hl; simpl; [done|].
    apply IH. destruct (started !! j) as [[res|err']|]; simpl; [done| |done].
    apply elem_of_app. by left. }
  revert e. induction schedule as [|j schedule IH]; intros e Hi Hs; simpl.
  - by apply elem_of_nil in Hi.
  - apply elem_of_cons in Hi as [->|Hi]; [|by apply IH].
    apply Hmono. rewrite Hs. simpl. apply elem_of_app. right.
    by apply list_elem_of_singleton.
Qed.

(** C1 (as amended): the result has one entry per element to download, in
    the order of the input, and every entry is settled as fulfilled: an
    element whose tarball was fetched and written carries its resolved
    package, an element whose fetch or write failed carries [null] and its
    error is printed; no entry is a rejection.  A failure does not stop the
    others from settling.  When the cache is in use it gains the keys of the
    written elements and nothing else, so a failed element does not update
    it. *)
Theorem downloadPackages_settles_all (pacote : Pacote) (packages : list Resolved)
    (options : DownloadOptions) (schedule : list nat) (env : DownloadEnv) :
  schedule ≡ₚ seq 0 (length (packagesToDownload options (cache env) packages)) ->
  let toDownload := packagesToDownload options (cache env) packages in
  let batch := downloadPackages pacote packages options schedule env in
  length (result batch) = length toDownload /\
  (forall i p, toDownload !! i = Some p -> written pacote options p = true ->
     result batch !! i
     = Some (Fulfilled (Some {| r_name := r_name p; r_version := r_version p;
                                r_isLatest := Some (truthy (r_isLatest p)) |}))) /\
  (forall i p, toDownload !! i = Some p -> written pacote options p = false ->
     result batch !! i = Some (Fulfilled None) /\
     exists e, pacote_tarball_toFile pacote (fst (requestFor options p))
                                     (snd (requestFor options p)) = Some e /\
               handlerError e ∈ dl_console (after batch)) /\
  (forall k, k ∈ cache (after batch) <->
     k ∈ cache env \/
     (useCache options = true /\
      exists p, p ∈ toDownload /\ written pacote options p = true /\ r_key p = k)).
Proof.
  intros Hperm toDownload batch.
  assert (Hsched : forall i, i ∈ schedule <-> i < length toDownload).
  { intros i. rewrite Hperm. rewrite list_elem_of_In, in_seq.
    unfold toDownload. lia. }
  subst batch. unfold downloadPackages. fold toDownload. simpl.
  split; [by rewrite !length_fmap|]. split; [|split].
  - intros i p Hi Hw. rewrite !list_lookup_fmap, Hi. simpl.
    by rewrite downloadPackageTarball_written.
  - intros i p Hi Hw.
    destruct (downloadPackageTarball_failed pacote options p Hw) as (e & He & Hd).
    split.
    + rewrite !list_lookup_fmap, Hi. simpl. by rewrite Hd.
    + exists e. split; [done|]. apply handlers_console with (i := i).
      * apply Hsched. by eapply lookup_lt_Some.
      * rewrite list_lookup_fmap, Hi. simpl. by rewrite Hd.
  - intros k. rewrite handlers_cache. simpl. split.
    + intros [Hk | (Hu & i & res & Hi & Hs & Hr)]; [by left|].
      right. split; [done|].
      rewrite list_lookup_fmap in Hs.
      destruct (toDownload !! i) as [p|] eqn:Hp; [|discriminate].
      simpl in Hs. exists p. split; [by eapply list_elem_of_lookup_2|].
      destruct (written pacote options p) eqn:Hw.
      * rewrite downloadPackageTarball_written in Hs by done.
        inversion Hs; subst. done.
      * destruct (downloadPackageTarball_failed pacote options p Hw) as (e & _ & Hd).
        rewrite Hd in Hs. discriminate.
    + intros [Hk | (Hu & p & Hp & Hw & Hr)]; [by left|].
      right. split; [done|].
      apply list_elem_of_lookup_1 in Hp as [i Hi].
      exists i, {| r_name := r_name p; r_version := r_version p;
                   r_isLatest := Some (truthy (r_isLatest p)) |}.
      split; [apply Hsched; by eapply lookup_lt_Some|].
      split; [|done].
      rewrite list_lookup_fmap, Hi. simpl.
      by rewrite downloadPackageTarball_written.
Qed.

Lemma downloadPackages_settles_all_witness :
  (result (downloadPackages failingWrites twoPackages cachingDownload [1; 0]
             emptyDownloadEnv) !! 0
   = Some (Fulfilled None)) /\
  (("bad", "1.0.0") ∉ cache (after (downloadPackages failingWrites twoPackages
                                      cachingDownload [1; 0] emptyDownloadEnv))) /\
  (("@scope/foo", "1.2.3") ∈ cache (after (downloadPackages failingWrites twoPackages
                                      cachingDownload [1; 0] emptyDownloadEnv))).
Proof.
  assert (Hperm : [1; 0] ≡ₚ
            seq 0 (length (packagesToDownload cachingDownload
                             (cache emptyDownloadEnv) twoPackages))).
  { vm_compute. apply perm_swap. }
  destruct (downloadPackages_settles_all failingWrites twoPackages cachingDownload
              [1; 0] emptyDownloadEnv Hperm) as (_ & _ & Hfail & Hcache).
  split; [|split].
  - assert (H0 : packagesToDownload cachingDownload (cache emptyDownloadEnv)
                   twoPackages !! 0
                 = Some {| r_name := "bad"; r_version := "1.0.0";
                           r_isLatest := Some false |})
      by (vm_compute; reflexivity).
    destruct (Hfail 0 _ H0) as [H _]; [vm_compute; reflexivity | exact H].
  - rewrite Hcache. intros [Hk | (_ & p & Hp & Hw & Hr)].
    + by apply not_elem_of_empty in Hk.
    + vm_compute in Hp. apply elem_of_cons in Hp as [->|Hp];
        [vm_compute in Hw; discriminate|].
      apply elem_of_cons in Hp as [->|Hp]; [vm_compute in Hr; discriminate|].
      by apply elem_of_nil in Hp.
  - rewrite Hcache. right. split; [reflexivity|].
    exists {| r_name := "@scope/foo"; r_version := "1.2.3"; r_isLatest := Some true |}.
    split; [|split; reflexivity]. vm_compute. right. left.
Defined.

(** C1 as the specification words it fails: the entry of a failed element
    is not a rejection, it is fulfilled with [null]. *)
Lemma failed_download_is_fulfilled_null :
  written failingWrites cachingDownload
    {| r_name := "bad"; r_version := "1.0.0"; r_isLatest := Some false |} = false /\
  result (downloadPackages failingWrites twoPackages cachingDownload [0; 1]
            emptyDownloadEnv)
  = [ Fulfilled None;
      Fulfilled (Some {| r_name := "@scope/foo"; r_version := "1.2.3";
                         r_isLatest := Some true |}) ] /\
  (forall e, result (downloadPackages failingWrites twoPackages cachingDownload [0; 1]
                       emptyDownloadEnv) !! 0 <> Some (Rejected e)).
Proof. repeat split; vm_compute; (reflexivity || discriminate). Qed.

(** ** The resolver and its options object *)

Lemma sameSettings_refl (o : Options) : sameSettings o o.
Proof. by repeat split. Qed.

Lemma sameSettings_trans (o1 o2 o3 : Options) :
  sameSettings o1 o2 -> sameSettings o2 o3 -> sameSettings o1 o3.
Proof.
  unfold sameSettings. intros (?&?&?&?&?) (?&?&?&?&?).
  repeat split; congruence.
Qed.

Lemma frac_or0_idem (x : option Q) : frac_or0 (Some (frac_or0 x)) = frac_or0 x.
Proof.
  unfold frac_or0. destruct x as [q|]; [|done].
  destruct (Qeq_bool q 0) eqn:E; [done|]. by rewrite E.
Qed.

Lemma getManifestDependencies_settings `{Semver} (manifest : Manifest)
    (o o' : Options) :
  sameSettings o o' ->
  getManifestDependencies manifest o = getManifestDependencies manifest o'.
Proof.
  intros (Hd & Hp & Ho & _). unfold getManifestDependencies, mergedPackages.
  by rewrite Hd, Hp, Ho.
Qed.

(** The state after the [forEach]: the options object is untouched, the
    visited set has gained the keys of the manifests, and every logger event
    carries the current [progress]. *)
Lemma announce_all (manifests : list Manifest) (env : Env) :
  options (fold_left announce manifests env) = options env /\
  console (fold_left announce manifests env) = console env /\
  resolvedPackages (fold_left announce manifests env)
  = list_to_set (key <$> manifests) ∪ resolvedPackages env /\
  exists events,
    logged (fold_left announce manifests env) = logged env ++ events /\
    Forall (fun ev => snd ev = default 0%Q (progress (options env))) events.
Proof.
  revert env. induction manifests as [|p ms IH]; intros env; simpl.
  - repeat split; [by rewrite (left_id_L ∅ (∪))|]. exists []. by rewrite app_nil_r.
  - destruct (IH (announce env p)) as (Ho & Hc & Hv & evs & Hl & Hevs).
    rewrite Ho, Hc, Hv, Hl. csimpl. repeat split.
    + unfold visited_set. apply set_eq. intros x.
      rewrite !elem_of_union, !elem_of_singleton. unfold key. tauto.
    + destruct (logger (options env)).
      * eexists (_ :: evs). rewrite <- app_assoc. simpl. split; [done|].
        constructor; done.
      * by exists evs.
Qed.

(** The loop keeps what every recursive call keeps. *)
Lemma forManifests_counters
    (resolve : Manifest -> Env -> option (list Resolved * Env)) (n : nat) :
  (forall m env out env', resolve m env = Some (out, env') ->
     countersAfter env out env') ->
  forall manifests env out env',
    forManifests resolve n manifests env = Some (out, env') ->
    countersAfter env out env'.
Proof.
  intros Hrec. induction manifests as [|m ms IH]; intros env out env' Hloop;
    simpl in Hloop.
  - inversion Hloop; subst. unfold countersAfter. split; [apply sameSettings_refl|].
    split; [done|]. split.
    + intros d ->. simpl. f_equal. lia.
    + intros d q _ _ -> _. split; [done|]. exists []. by rewrite app_nil_r.
  - destruct (resolve m _) as [[childs env1]|] eqn:Hcall; [|discriminate].
    apply Hrec in Hcall. destruct Hcall as (Hs1 & Hp1 & Hd1 & Hq1).
    simpl in Hs1, Hp1, Hd1, Hq1.
    match type of Hloop with
    | context [forManifests resolve n ms ?e] => set (env2 := e) in *
    end.
    destruct (forManifests resolve n ms env2) as [[more env3]|] eqn:Hrest;
      [|discriminate].
    inversion Hloop; subst out env'. clear Hloop.
    apply IH in Hrest. destruct Hrest as (Hs2 & Hp2 & Hd2 & Hq2).
    assert (Hs12 : sameSettings (options env1) (options env2)).
    { subst env2. case_bool_decide; [|apply sameSettings_refl]. by repeat split. }
    assert (Hd12 : depth (options env2) = depth (options env1)).
    { subst env2. by case_bool_decide. }
    assert (Hp12 : is_Some (progress (options env1)) ->
                   is_Some (progress (options env2))).
    { subst env2. case_bool_decide; [|done]. simpl. intros [q ->]. by eexists. }
    split; [|split; [|split]].
    + eapply sameSettings_trans; [|exact Hs2].
      eapply sameSettings_trans; [|exact Hs12].
      eapply sameSettings_trans; [|exact Hs1]. by repeat split.
    + intros Hp. apply Hp2, Hp12, Hp1. done.
    + intros d Hd. specialize (Hd1 (d + 1)%Z). rewrite Hd in Hd1.
      specialize (Hd1 eq_refl). rewrite <- Hd12 in Hd1.
      rewrite (Hd2 _ Hd1). f_equal. simpl length. rewrite length_app. lia.
    + intros d q Hd Hd0 Hq Hcanon.
      destruct (Hq1 (d + 1)%Z q) as (Hq1' & evs1 & Hl1 & Hevs1);
        [by rewrite Hd | lia | done | done |].
      specialize (Hd1 (d + 1)%Z). rewrite Hd in Hd1. specialize (Hd1 eq_refl).
      assert (Henv2 : env2 = env1).
      { subst env2. rewrite bool_decide_eq_false_2; [done|].
        rewrite Hd1. intros [= Hz]. lia. }
      rewrite Henv2 in *.
      destruct (Hq2 _ q Hd1) as (Hq2' & evs2 & Hl2 & Hevs2); [lia | done | done |].
      split; [done|]. exists (evs1 ++ evs2).
      split; [by rewrite Hl2, Hl1, app_assoc | by apply Forall_app].
Qed.

Lemma countersAfter_nothing (env : Env) : countersAfter env [] env.
Proof.
  split; [apply sameSettings_refl|]. split; [done|]. split.
  - intros d ->. simpl. f_equal. lia.
  - intros d q _ _ -> _. split; [done|]. exists []. by rewrite app_nil_r.
Qed.

(** For an options object whose counters are already numbers, initialising
    them changes nothing that [countersAfter] looks at. *)
Lemma countersAfter_init (env : Env) (out : list Resolved) (env' : Env) :
  countersAfter (with_options env (init_counters (options env))) out env' ->
  countersAfter env out env'.
Proof.
  intros (Hs & Hp & Hd & Hq). simpl in *.
  split; [done|]. split; [intros _; apply Hp; by eexists|]. split.
  - intros d Hdepth. apply Hd. by rewrite Hdepth.
  - intros d q Hdepth Hd0 Hprog Hcanon. apply (Hq d q); try done.
    + by rewrite Hdepth.
    + by rewrite Hprog, Hcanon.
Qed.

Lemma resolveDependencies_counters `{Semver} (pacote : Pacote) (fuel : nat) :
  forall manifest env out env',
    resolveDependencies fuel pacote manifest env = Some (out, env') ->
    (getManifestDependencies manifest (options env) = [] -> env' = env /\ out = []) /\
    (getManifestDependencies manifest (options env) <> [] ->
       countersAfter (with_options env (init_counters (options env))) out env').
Proof.
  induction fuel as [|fuel IH]; intros manifest env out env' Hcall;
    simpl in Hcall; [discriminate|].
  destruct (getManifestDependencies manifest (options env)) as [|e es] eqn:Hdeps.
  - inversion Hcall; subst. split; [done|]. by intros [].
  - split; [discriminate|]. intros _.
    apply forManifests_counters in Hcall.
    + match type of Hcall with
      | countersAfter (fold_left announce ?ms ?e1) _ _ =>
          destruct (announce_all ms e1) as (Ho & _ & _ & evs & Hl & Hevs)
      end.
      simpl in Ho, Hl, Hevs.
      destruct Hcall as (Hs & Hp & Hd & Hq). rewrite Ho in Hs, Hp, Hd, Hq.
      split; [done|]. split; [done|]. split; [done|].
      intros d q Hdepth Hd0 Hprog Hcanon. simpl in Hdepth, Hprog.
      destruct (Hq d q) as (Hq' & evs' & Hl' & Hevs'); try done.
      split; [done|]. exists (evs ++ evs'). simpl. split.
      * by rewrite Hl', Hl, app_assoc.
      * apply Forall_app. split; [|done]. inversion Hprog as [Hfrac].
        eapply Forall_impl; [exact Hevs|]. simpl. intros ev ->. done.
    + clear Hcall. intros m env0 out0 env0' Hcall0.
      apply IH in Hcall0 as [Hempty Hsome].
      destruct (getManifestDependencies m (options env0)) as [|e0 es0].
      * destruct Hempty as [-> ->]; [done|]. apply countersAfter_nothing.
      * apply countersAfter_init, Hsome. discriminate.
Qed.

(** ** The resolver and the visited set *)

Lemma not_visited (n v : string) (s : gset (string * string)) :
  negb (visited_get n v s) <-> (n, v) ∉ s.
Proof. unfold visited_get. by rewrite negb_True, bool_decide_spec. Qed.

Lemma key_withIsLatest (m : Manifest) (b : bool) : key (withIsLatest m b) = key m.
Proof. done. Qed.

(** Every fetched manifest was served by the registry for the name of one
    of the edges. *)
Lemma fetched_served (pacote : Pacote) (visited : gset (string * string))
    (dependencies : list Edge) (m : Manifest) :
  m ∈ omap fst (fetchManifests pacote visited dependencies) ->
  exists e s m0 b,
    e ∈ dependencies /\ pacote_manifest pacote s = Fulfilled m0 /\
    spec_name s = edge_name e /\ m = withIsLatest m0 b.
Proof.
  unfold fetchManifests. rewrite list_elem_of_omap.
  intros (x & Hx & Hm). apply list_elem_of_fmap in Hx as (e & -> & He).
  apply list_elem_of_filter in He as [_ He].
  unfold caught in Hm.
  destruct (outcome (getPackageManifest pacote (edge_name e) (edge_version e)))
    as [m'|err] eqn:Hout; simpl in Hm; [|discriminate].
  inversion Hm; subst m'.
  apply getPackageManifest_fulfilled in Hout as (s & m0 & b & Hs & Hn & ->).
  by exists e, s, m0, b.
Qed.

Lemma newManifests_spec (visited : gset (string * string))
    (fetched : list (option Manifest * list ConsoleLine)) (m : Manifest) :
  m ∈ newManifests visited fetched <-> (key m ∉ visited) /\ m ∈ omap fst fetched.
Proof.
  unfold newManifests. rewrite list_elem_of_filter. by rewrite not_visited.
Qed.

(** When the registry answers by name, the manifests kept for one parent
    carry the names of distinct edges, in the order of the edges. *)
Lemma newManifests_names (pacote : Pacote) (visited visited' : gset (string * string))
    (dependencies : list Edge) :
  answersByName pacote ->
  name <$> newManifests visited' (fetchManifests pacote visited dependencies)
    `sublist_of` edge_name <$> dependencies.
Proof.
  intros Hby. unfold newManifests, fetchManifests.
  induction dependencies as [|e es IH]; [done|].
  rewrite filter_cons. destruct (decide _) as [Hq|Hq];
    [|rewrite fmap_cons; by apply sublist_cons].
  rewrite !fmap_cons. simpl omap.
  destruct (caught (getPackageManifest pacote (edge_name e) (edge_version e)))
    as [[m|] lines] eqn:Hc; simpl; [|by apply sublist_cons].
  rewrite filter_cons. destruct (decide _) as [Hp|Hp]; [|by apply sublist_cons].
  rewrite fmap_cons.
  assert (name m = edge_name e) as ->; [|by apply sublist_skip].
  unfold caught in Hc.
  destruct (outcome (getPackageManifest pacote (edge_name e) (edge_version e)))
    as [m'|err] eqn:Hout; [|discriminate].
  inversion Hc; subst m'.
  apply getPackageManifest_fulfilled in Hout as (s & m0 & b & Hs & Hn & ->).
  simpl. rewrite <- Hn. by apply Hby.
Qed.

Lemma NoDup_keys_of_names (manifests : list Manifest) :
  NoDup (name <$> manifests) -> NoDup (key <$> manifests).
Proof.
  induction manifests as [|m ms IH]; [intros _; constructor|].
  rewrite !fmap_cons, !NoDup_cons. intros [Hm Hms]. split; [|by apply IH].
  intros Hk. apply Hm. apply list_elem_of_fmap in Hk as (m' & Hk & Hm').
  apply list_elem_of_fmap. exists m'. split; [|done]. by inversion Hk.
Qed.

Lemma edge_names_NoDup `{Semver} (manifest : Manifest) (o : Options) :
  NoDup (edge_name <$> getManifestDependencies manifest o).
Proof.
  unfold getManifestDependencies. rewrite <- list_fmap_compose.
  apply mergedPackages_NoDup.
Qed.

Lemma newManifests_NoDup `{Semver} (pacote : Pacote)
    (visited visited' : gset (string * string)) (manifest : Manifest) (o : Options) :
  answersByName pacote ->
  NoDup (key <$> newManifests visited'
                   (fetchManifests pacote visited (getManifestDependencies manifest o))).
Proof.
  intros Hby. apply NoDup_keys_of_names.
  eapply sublist_NoDup; [apply (edge_names_NoDup manifest o)|].
  by apply newManifests_names.
Qed.

(** The loop: the elements it emits are the manifests themselves and what
    the recursive calls emit. *)
Lemma forManifests_visits (distinctSiblings : Prop)
    (resolve : Manifest -> Env -> option (list Resolved * Env)) (n : nat) :
  (forall m env out env', resolve m env = Some (out, env') ->
     visitsAfter distinctSiblings env out env') ->
  forall manifests env out env',
    (distinctSiblings -> NoDup (key <$> manifests)) ->
    (forall m, m ∈ manifests -> key m ∈ resolvedPackages env) ->
    forManifests resolve n manifests env = Some (out, env') ->
    resolvedPackages env ⊆ resolvedPackages env' /\
    (distinctSiblings -> NoDup (r_key <$> out)) /\
    (forall k, k ∈ r_key <$> out ->
       k ∈ resolvedPackages env' /\
       (k ∈ key <$> manifests \/ k ∉ resolvedPackages env)).
Proof.
  intros Hrec. induction manifests as [|m ms IH];
    intros env out env' Hnd Hin Hloop; simpl in Hloop.
  - inversion Hloop; subst. split; [done|]. split; [intros _; constructor|].
    intros k Hk. by apply elem_of_nil in Hk.
  - destruct (resolve m _) as [[childs env1]|] eqn:Hcall; [|discriminate].
    apply Hrec in Hcall. destruct Hcall as (Hsub1 & Hnd1 & Hk1).
    simpl in Hsub1, Hk1.
    match type of Hloop with
    | context [forManifests resolve n ms ?e] => set (env2 := e) in *
    end.
    assert (Hv2 : resolvedPackages env2 = resolvedPackages env1).
    { subst env2. by case_bool_decide. }
    destruct (forManifests resolve n ms env2) as [[more env3]|] eqn:Hrest;
      [|discriminate].
    inversion Hloop; subst out env'. clear Hloop.
    apply IH in Hrest.
    2:{ intros Hd. specialize (Hnd Hd). rewrite fmap_cons in Hnd.
        by apply NoDup_cons in Hnd as [_ Hnd]. }
    2:{ intros m' Hm'. rewrite Hv2. apply Hsub1, Hin. by right. }
    destruct Hrest as (Hsub2 & Hnd2 & Hk2). rewrite Hv2 in Hsub2, Hk2.
    assert (Hkm : key m ∈ resolvedPackages env) by (apply Hin; left).
    split; [by etrans|]. split.
    + intros Hd. specialize (Hnd Hd). rewrite fmap_cons in Hnd.
      apply NoDup_cons in Hnd as [Hm Hnd].
      rewrite fmap_cons, fmap_app. apply NoDup_cons. split.
      * rewrite elem_of_app. intros [Hc|Hc].
        -- apply Hk1 in Hc as [Hc _]. done.
        -- apply Hk2 in Hc as [_ [Hc|Hc]]; [done|]. apply Hc, Hsub1, Hkm.
      * apply NoDup_app. split; [by apply Hnd1|]. split; [|by apply Hnd2].
        intros k Hc Hc'. apply Hk1 in Hc as [Hc Hc1].
        apply Hk2 in Hc' as [_ [Hc'|Hc']]; [|done].
        apply Hc. apply list_elem_of_fmap in Hc' as (m' & -> & Hm').
        apply Hin. by right.
    + intros k. rewrite fmap_cons, fmap_app, elem_of_cons, elem_of_app.
      intros [->|[Hc|Hc]].
      * split; [apply Hsub2, Hsub1, Hkm|]. left. rewrite fmap_cons. left.
      * apply Hk1 in Hc as [Hc Hc1]. split; [by apply Hsub2|by right].
      * apply Hk2 in Hc as [Hc3 [Hc|Hc]]; (split; [done|]).
        -- left. rewrite fmap_cons. by right.
        -- right. intros Hc'. by apply Hc, Hsub1.
Qed.

Lemma resolveDependencies_visits `{Semver} (pacote : Pacote) (fuel : nat) :
  forall manifest env out env',
    resolveDependencies fuel pacote manifest env = Some (out, env') ->
    visitsAfter (answersByName pacote) env out env'.
Proof.
  induction fuel as [|fuel IH]; intros manifest env out env' Hcall;
    simpl in Hcall; [discriminate|].
  destruct (getManifestDependencies manifest (options env)) as [|e es] eqn:Hdeps.
  - inversion Hcall; subst. split; [done|]. split; [intros _; constructor|].
    intros k Hk. by apply elem_of_nil in Hk.
  - rewrite <- Hdeps in Hcall. simpl in Hcall.
    match type of Hcall with
    | forManifests _ _ ?ms (fold_left announce ?ms ?e1) = _ =>
        destruct (announce_all ms e1) as (_ & _ & Hv & _);
        pose proof (newManifests_NoDup pacote (resolvedPackages env)
                      (resolvedPackages env) manifest (options env)) as Hnd;
        assert (Hnew : forall m, m ∈ ms -> key m ∉ resolvedPackages env)
          by (intros m Hm; by apply newManifests_spec in Hm as [Hm _])
    end.
    simpl in Hv.
    apply (forManifests_visits _ _ _ IH) in Hcall; [|done|].
    2:{ intros m Hm. rewrite Hv. apply elem_of_union. left.
        apply elem_of_list_to_set. by apply list_elem_of_fmap_2. }
    rewrite Hv in Hcall. destruct Hcall as (Hsub & Hnd' & Hk).
    split; [|split; [done|]].
    + etrans; [|exact Hsub]. apply union_subseteq_r.
    + intros k Hc. apply Hk in Hc as [Hc1 [Hc|Hc]]; (split; [|done]).
      * apply list_elem_of_fmap in Hc as (m & -> & Hm). by apply Hnew.
      * intros Hc'. apply Hc. apply elem_of_union. by right.
Qed.

(** ** Termination *)

Lemma unvisited_mono (universe : list (string * string))
    (visited visited' : gset (string * string)) :
  visited ⊆ visited' -> unvisited universe visited' <= unvisited universe visited.
Proof.
  intros Hsub. unfold unvisited.
  induction universe as [|k u IH]; [done|].
  rewrite !filter_cons.
  destruct (decide (k ∉ visited')) as [Hk'|Hk'], (decide (k ∉ visited)) as [Hk|Hk];
    simpl; try lia.
  exfalso. apply Hk. intros Hv. by apply Hk', Hsub.
Qed.

Lemma unvisited_lt (universe : list (string * string))
    (visited visited' : gset (string * string)) (k : string * string) :
  k ∈ universe -> k ∉ visited -> k ∈ visited' -> visited ⊆ visited' ->
  unvisited universe visited' < unvisited universe visited.
Proof.
  intros Hk Hnot Hin Hsub. induction Hk as [k u|k k0 u Hk IH].
  - pose proof (unvisited_mono u visited visited' Hsub) as Hle.
    unfold unvisited in *. rewrite !filter_cons.
    rewrite decide_False by (intros Hc; by apply Hc).
    rewrite decide_True by done. simpl. lia.
  - pose proof (unvisited_mono [k0] visited visited' Hsub) as Hle.
    specialize (IH Hnot Hin). unfold unvisited in *. rewrite !filter_cons in *.
    destruct (decide (k0 ∉ visited')), (decide (k0 ∉ visited)); simpl in *; lia.
Qed.

Lemma forManifests_terminates
    (resolve : Manifest -> Env -> option (list Resolved * Env)) (n : nat)
    (universe : list (string * string)) (fuel : nat) :
  (forall m env, unvisited universe (resolvedPackages env) < fuel ->
     exists out env', resolve m env = Some (out, env') /\
                      resolvedPackages env ⊆ resolvedPackages env') ->
  forall manifests env,
    unvisited universe (resolvedPackages env) < fuel ->
    exists out env', forManifests resolve n manifests env = Some (out, env') /\
                     resolvedPackages env ⊆ resolvedPackages env'.
Proof.
  intros Hrec. induction manifests as [|m ms IH]; intros env Hfuel; simpl.
  - by exists [], env.
  - destruct (Hrec m (with_options env (assign_depth_plus_1 (options env))))
      as (childs & env1 & -> & Hsub1); [done|]. simpl in Hsub1.
    match goal with
    | |- context [forManifests resolve n ms ?e] => set (env2 := e)
    end.
    assert (Hv2 : resolvedPackages env2 = resolvedPackages env1).
    { subst env2. by case_bool_decide. }
    destruct (IH env2) as (more & env3 & -> & Hsub2).
    + rewrite Hv2. eapply Nat.le_lt_trans; [|exact Hfuel].
      by apply unvisited_mono.
    + eexists _, _. split; [done|]. rewrite Hv2 in Hsub2. by etrans.
Qed.

Lemma resolveDependencies_terminates `{Semver} (pacote : Pacote)
    (universe : list (string * string)) :
  finiteRegistry pacote universe ->
  forall fuel manifest env,
    unvisited universe (resolvedPackages env) < fuel ->
    exists out env', resolveDependencies fuel pacote manifest env = Some (out, env') /\
                     resolvedPackages env ⊆ resolvedPackages env'.
Proof.
  intros Hfin. induction fuel as [|fuel IH]; intros manifest env Hfuel; [lia|].
  simpl.
  destruct (getManifestDependencies manifest (options env)) as [|e es] eqn:Hdeps.
  - by exists [], env.
  - simpl.
    remember (newManifests (resolvedPackages env)
                (fetchManifests pacote (resolvedPackages env) (e :: es)))
      as manifests eqn:Hms.
    match goal with
    | |- context [fold_left announce manifests ?e1] =>
        destruct (announce_all manifests e1) as (_ & _ & Hv & _);
        set (env2 := fold_left announce manifests e1) in *
    end.
    simpl in Hv.
    assert (Hsub : resolvedPackages env ⊆ resolvedPackages env2).
    { rewrite Hv. apply union_subseteq_r. }
    destruct manifests as [|m ms].
    + simpl. by exists [], env2.
    + assert (Hm : m ∈ newManifests (resolvedPackages env)
                       (fetchManifests pacote (resolvedPackages env) (e :: es)))
        by (rewrite <- Hms; left).
      apply newManifests_spec in Hm as [Hnot Hm].
      apply fetched_served in Hm as (e0 & s & m0 & b & _ & Hs & _ & ->).
      destruct (forManifests_terminates (resolveDependencies fuel pacote)
                  (S (length es)) universe fuel IH
                  (withIsLatest m0 b :: ms) env2) as (out & env' & Hloop & Hsub').
      * assert (unvisited universe (resolvedPackages env2)
                < unvisited universe (resolvedPackages env)); [|lia].
        apply (unvisited_lt _ _ _ (key m0)); [by eapply Hfin|done| |done].
        rewrite Hv. apply elem_of_union. left. apply elem_of_list_to_set.
        rewrite fmap_cons. left.
      * exists out, env'. split; [exact Hloop | by etrans].
Qed.

(** ** Registries given by a table *)

Lemma spec_eqb_eq (a b : PackageSpec) : spec_eqb a b = true -> a = b.
Proof.
  destruct a, b; simpl; try discriminate.
  - intros Hab. apply andb_true_iff in Hab as [Hn Hv].
    apply String.eqb_eq in Hn, Hv. by subst.
  - intros Hab. apply String.eqb_eq in Hab. by subst.
Qed.

Lemma lookup_spec_Some {A : Type} (s : PackageSpec) (t : list (PackageSpec * A))
    (a : A) :
  lookup_spec s t = Some a -> (s, a) ∈ t.
Proof.
  induction t as [|[s' a'] t IH]; simpl; [discriminate|].
  destruct (spec_eqb s' s) eqn:E.
  - intros [= ->]. apply spec_eqb_eq in E. subst. left.
  - intros Hl. right. by apply IH.
Qed.

Lemma tableRegistry_answersByName (t : list (PackageSpec * Manifest)) (tag : string) :
  filedByName t = true -> answersByName (tableRegistry t tag).
Proof.
  unfold filedByName. rewrite forallb_forall. intros Hall s m. simpl.
  destruct (lookup_spec s t) as [m'|] eqn:Hl; [|discriminate].
  intros [= ->]. apply lookup_spec_Some in Hl.
  apply list_elem_of_In in Hl. apply Hall in Hl. simpl in Hl.
  by apply String.eqb_eq in Hl.
Qed.

Lemma tableRegistry_finite (t : list (PackageSpec * Manifest)) (tag : string) :
  finiteRegistry (tableRegistry t tag) ((fun sm => key (snd sm)) <$> t).
Proof.
  intros s m. simpl.
  destruct (lookup_spec s t) as [m'|] eqn:Hl; [|discriminate].
  intros [= ->]. apply lookup_spec_Some in Hl.
  apply list_elem_of_fmap. by exists (s, m).
Qed.

(** ** The claims about the resolver *)

(** C8: for every finite dependency graph, cyclic or not (a registry that
    can return only the manifests of [universe]), the resolver returns as
    soon as its recursion may go deeper than the number of pairs of
    [universe].  A pair that is in the visited set when the call starts is
    never emitted, hence never expanded again, and every emitted pair is in
    the visited set afterwards.  In a graph whose edges lead to the package
    they name, the emitted pairs are pairwise distinct, so a pair is
    expanded on its first visit only.  The cycle
    [a@1.0.0 -> b@1.0.0 -> a@1.0.0] yields exactly [a@1.0.0] and
    [b@1.0.0]. *)
Theorem resolver_terminates `{Semver} (pacote : Pacote)
    (universe : list (string * string)) (fuel : nat) (manifest : Manifest)
    (env : Env) :
  finiteRegistry pacote universe ->
  length universe < fuel ->
  (exists out env',
     resolveDependencies fuel pacote manifest env = Some (out, env') /\
     (forall k, k ∈ resolvedPackages env -> k ∉ r_key <$> out) /\
     (forall k, k ∈ r_key <$> out -> k ∈ resolvedPackages env') /\
     (answersByName pacote -> NoDup (r_key <$> out))) /\
  fst <$> @resolveDependencies semverModel 3 cycleRegistry
            (rootManifest [("a", "1.0.0")]) (freshEnv plainOptions)
  = Some [ {| r_name := "a"; r_version := "1.0.0"; r_isLatest := Some true |};
           {| r_name := "b"; r_version := "1.0.0"; r_isLatest := Some true |} ].
Proof.
  intros Hfin Hfuel. split; [|vm_compute; reflexivity].
  destruct (resolveDependencies_terminates pacote universe Hfin fuel manifest env)
    as (out & env' & Hcall & _).
  { eapply Nat.le_lt_trans; [apply length_filter | exact Hfuel]. }
  exists out, env'. split; [done|].
  apply resolveDependencies_visits in Hcall as (_ & Hnd & Hk).
  split; [|split; [|done]].
  - intros k Hin Hout. by apply Hk in Hout as [Hout _].
  - intros k Hout. by apply Hk in Hout as [_ Hout].
Qed.

Lemma resolver_terminates_witness :
  answersByName cycleRegistry /\
  finiteRegistry cycleRegistry cycleUniverse /\
  exists out env',
    @resolveDependencies semverModel 3 cycleRegistry
      (rootManifest [("a", "1.0.0")]) (freshEnv plainOptions) = Some (out, env') /\
    NoDup (r_key <$> out).
Proof.
  assert (Hby : answersByName cycleRegistry)
    by (apply tableRegistry_answersByName; reflexivity).
  assert (Hfin : finiteRegistry cycleRegistry cycleUniverse)
    by apply tableRegistry_finite.
  split; [exact Hby|]. split; [exact Hfin|].
  destruct (@resolver_terminates semverModel cycleRegistry cycleUniverse 3
              (rootManifest [("a", "1.0.0")]) (freshEnv plainOptions) Hfin)
    as [(out & env' & Hcall & _ & _ & Hnd) _].
  - simpl. lia.
  - exists out, env'. split; [exact Hcall | exact (Hnd Hby)].
Defined.

(** C2 (as amended): in a resolve pass that starts from a cleared visited
    set, against a registry that answers every request with a manifest of
    the requested name (so that the edges of one parent resolve to distinct
    pairs), the output contains each [(name, version)] pair at most once and
    every emitted pair is in the visited set; in particular two edges of
    different parents whose different ranges resolve to the same concrete
    pair yield one output element. *)
Theorem resolver_output_distinct `{Semver} (pacote : Pacote) (fuel : nat)
    (manifest : Manifest) (o : Options) (out : list Resolved) (env' : Env) :
  answersByName pacote ->
  resolveDependencies fuel pacote manifest (freshEnv o) = Some (out, env') ->
  NoDup (r_key <$> out) /\
  (forall r, r ∈ out -> r_key r ∈ resolvedPackages env').
Proof.
  intros Hby Hcall.
  apply resolveDependencies_visits in Hcall as (_ & Hnd & Hk).
  split; [by apply Hnd|]. intros r Hr. apply Hk. by apply list_elem_of_fmap_2.
Qed.

Lemma resolver_output_distinct_witness :
  answersByName diamondRegistry /\
  fst <$> @resolveDependencies semverModel 3 diamondRegistry
            (rootManifest [("p", "1.0.0"); ("q", "1.0.0")]) (freshEnv plainOptions)
  = Some [ {| r_name := "p"; r_version := "1.0.0"; r_isLatest := Some false |};
           {| r_name := "c"; r_version := "1.0.5"; r_isLatest := Some true |};
           {| r_name := "q"; r_version := "1.0.0"; r_isLatest := Some false |} ] /\
  NoDup [ ("p", "1.0.0"); ("c", "1.0.5"); ("q", "1.0.0") ].
Proof.
  assert (Hby : answersByName diamondRegistry)
    by (apply tableRegistry_answersByName; reflexivity).
  split; [exact Hby|].
  destruct (@resolveDependencies semverModel 3 diamondRegistry
              (rootManifest [("p", "1.0.0"); ("q", "1.0.0")])
              (freshEnv plainOptions)) as [[out env']|] eqn:Hcall;
    [|vm_compute in Hcall; discriminate].
  destruct (@resolver_output_distinct semverModel diamondRegistry 3 _ _ out env'
              Hby Hcall) as [Hnd _].
  assert (Hout : out = [ {| r_name := "p"; r_version := "1.0.0"; r_isLatest := Some false |};
           {| r_name := "c"; r_version := "1.0.5"; r_isLatest := Some true |};
           {| r_name := "q"; r_version := "1.0.0"; r_isLatest := Some false |} ]).
  { vm_compute in Hcall. by inversion Hcall. }
  subst out. split; [reflexivity | exact Hnd].
Defined.

(** C2 as the specification words it fails: when two sibling edges with
    different range strings resolve to the same concrete pair, both
    manifests pass the second filter (which runs over the whole batch before
    any of them is marked) and the pair is emitted twice. *)
Lemma sibling_duplicates_emitted :
  getManifestDependencies (H := semverModel)
    (rootManifest [("a", "1.0.0"); ("b", "^1.0.0")]) plainOptions
  = [ {| edge_name := "a"; edge_version := "1.0.0" |};
      {| edge_name := "b"; edge_version := "^1.0.0" |} ] /\
  fst <$> @resolveDependencies semverModel 2 aliasRegistry
            (rootManifest [("a", "1.0.0"); ("b", "^1.0.0")]) (freshEnv plainOptions)
  = Some [ {| r_name := "a"; r_version := "1.0.0"; r_isLatest := Some true |};
           {| r_name := "a"; r_version := "1.0.0"; r_isLatest := Some true |} ] /\
  ~ NoDup [ ("a", "1.0.0"); ("a", "1.0.0") ].
Proof.
  split; [vm_compute; reflexivity|]. split; [vm_compute; reflexivity|].
  intros Hnd. apply NoDup_cons in Hnd as [Hin _]. apply Hin. left.
Qed.

(** C10 (as amended): a call never changes [dev], [peer], [optional],
    [registry] or [logger].  When the manifest yields no edge the options
    object is left exactly as the caller passed it.  When it yields at least
    one edge, [depth] and [progress] are written into the caller's object
    (an absent value becomes a number) and [depth] is incremented in place
    once per emitted element and never restored: after the call it is the
    initial depth plus the number of output elements.  So after a call that
    emitted something, an object that started without a depth (or with a
    non-negative one) holds a depth of at least one, which is not its
    original value, and is no fresh depth-0 state. *)
Theorem resolveDependencies_options `{Semver} (pacote : Pacote) (fuel : nat)
    (manifest : Manifest) (env : Env) (out : list Resolved) (env' : Env) :
  resolveDependencies fuel pacote manifest env = Some (out, env') ->
  sameSettings (options env) (options env') /\
  (getManifestDependencies manifest (options env) = [] ->
     options env' = options env /\ out = []) /\
  (getManifestDependencies manifest (options env) <> [] ->
     depth (options env')
     = Some (int_or0 (depth (options env)) + Z.of_nat (length out))%Z /\
     is_Some (progress (options env'))) /\
  (out <> [] -> (0 <= int_or0 (depth (options env)))%Z ->
     (exists d, depth (options env') = Some d /\ (1 <= d)%Z) /\
     depth (options env') <> depth (options env)).
Proof.
  intros Hcall.
  apply resolveDependencies_counters in Hcall as [Hempty Hsome].
  assert (Hedges : getManifestDependencies manifest (options env) <> [] ->
            sameSettings (options env) (options env') /\
            depth (options env')
            = Some (int_or0 (depth (options env)) + Z.of_nat (length out))%Z /\
            is_Some (progress (options env'))).
  { intros Hne. destruct (Hsome Hne) as (Hs & Hp & Hd & _). simpl in Hs, Hp, Hd.
    split; [done|]. split; [by apply Hd | apply Hp; by eexists]. }
  destruct (getManifestDependencies manifest (options env)) as [|e es] eqn:Hdeps.
  - destruct Hempty as [-> ->]; [done|].
    split; [apply sameSettings_refl|]. split; [done|]. split; by intros [].
  - destruct Hedges as (Hs & Hd & Hp); [done|].
    split; [done|]. split; [discriminate|]. split; [done|].
    intros Hout Hd0.
    assert (1 <= Z.of_nat (length out))%Z by (destruct out; [done|simpl; lia]).
    split.
    + eexists. split; [exact Hd | lia].
    + rewrite Hd. destruct (depth (options env)) as [d|]; [|discriminate].
      simpl. intros [= Hz]. lia.
Qed.

Lemma resolveDependencies_options_witness :
  exists out env',
    @resolveDependencies semverModel 3 cycleRegistry
      (rootManifest [("a", "1.0.0")]) (freshEnv plainOptions) = Some (out, env') /\
    length out = 2 /\
    depth (options env') = Some 2%Z /\
    sameSettings plainOptions (options env').
Proof.
  destruct (@resolveDependencies semverModel 3 cycleRegistry
              (rootManifest [("a", "1.0.0")]) (freshEnv plainOptions))
    as [[out env']|] eqn:Hcall; [|vm_compute in Hcall; discriminate].
  exists out, env'. split; [reflexivity|].
  assert (Hlen : length out = 2) by (vm_compute in Hcall; by inversion Hcall).
  destruct (@resolveDependencies_options semverModel cycleRegistry 3 _ _ out env'
              Hcall) as (Hs & _ & Hd & _).
  split; [exact Hlen|]. split; [|exact Hs].
  destruct Hd as [Hd _]; [vm_compute; discriminate|].
  rewrite Hd, Hlen. reflexivity.
Defined.

(** C10 as the specification words it fails: for a manifest without
    dependencies the call returns before it touches the options object,
    which still holds what the caller passed and is as fresh as before. *)
Lemma no_edges_options_untouched :
  @resolveDependencies semverModel 1 cycleRegistry (rootManifest [])
    (freshEnv plainOptions)
  = Some ([], freshEnv plainOptions) /\
  depth (options (freshEnv plainOptions)) = None /\
  progress (options (freshEnv plainOptions)) = None.
Proof. repeat split. Qed.

(** C9, what the code does: whenever a caller passes an options object
    without a depth (or with a non-negative one), no call advances the
    progress fraction.  The increment is guarded by [options.depth === 0],
    but the recursive call has just been given the same object with its
    depth raised to at least one, and nothing lowers it again; so after a
    pass over at least one edge [progress] is its initial value (zero when
    absent) and every logger event carries that same value. *)
Theorem progress_never_advances `{Semver} (pacote : Pacote) (fuel : nat)
    (manifest : Manifest) (env : Env) (out : list Resolved) (env' : Env) :
  resolveDependencies fuel pacote manifest env = Some (out, env') ->
  getManifestDependencies manifest (options env) <> [] ->
  (0 <= int_or0 (depth (options env)))%Z ->
  progress (options env') = Some (frac_or0 (progress (options env))) /\
  exists events,
    logged env' = logged env ++ events /\
    Forall (fun ev => snd ev = frac_or0 (progress (options env))) events.
Proof.
  intros Hcall Hne Hd0.
  apply resolveDependencies_counters in Hcall as [_ Hsome].
  destruct (Hsome Hne) as (_ & _ & _ & Hq). simpl in Hq.
  apply (Hq _ _ eq_refl Hd0 eq_refl). apply frac_or0_idem.
Qed.

(** One root edge, whose package [a@1.0.0] has no dependencies: after the
    edge has completed its whole subtree the progress fraction is still 0,
    not 1/1. *)
Lemma progress_never_advances_witness :
  exists out env',
    @resolveDependencies semverModel 2 singleRegistry
      (rootManifest [("a", "1.0.0")]) (freshEnv plainOptions) = Some (out, env') /\
    length out = 1 /\
    progress (options env') = Some 0%Q /\
    logged env' = [("Resolving dependencies: a@1.0.0", 0%Q)].
Proof.
  destruct (@resolveDependencies semverModel 2 singleRegistry
              (rootManifest [("a", "1.0.0")]) (freshEnv plainOptions))
    as [[out env']|] eqn:Hcall; [|vm_compute in Hcall; discriminate].
  exists out, env'. split; [reflexivity|].
  destruct (@progress_never_advances semverModel singleRegistry 2 _ _ out env'
              Hcall) as (Hp & _).
  - vm_compute. discriminate.
  - vm_compute. discriminate.
  - vm_compute in Hcall. inversion Hcall; subst.
    split; [reflexivity|]. split; [exact Hp | reflexivity].
Defined.

(** * Further properties of the pipeline *)

(** ** The order of the edges *)







(** ** The requests of the registry client *)

(** X2: one call of the registry client sends one or two manifest requests
    and at most one packument request, all of them for the package it was
    asked about; the first manifest request is the query itself, a second
    one is sent only after the registry rejected the first with [ETARGET]
    or [E404]; a call that is fulfilled returns a manifest whose [isLatest]
    is a boolean. *)
Theorem getPackageManifest_requests (pacote : Pacote)
    (packageName packageVersion : string) :
  let fetch := getPackageManifest pacote packageName packageVersion in
  head (manifestCalls fetch) = Some (NameAtVersion packageName packageVersion) /\
  length (manifestCalls fetch) <= 2 /\
  length (packumentCalls fetch) <= 1 /\
  Forall (fun s => spec_name s = packageName) (manifestCalls fetch) /\
  Forall (fun n => n = packageName) (packumentCalls fetch) /\
  (length (manifestCalls fetch) = 2 ->
     exists error,
       pacote_manifest pacote (NameAtVersion packageName packageVersion)
       = Rejected error /\
       (code error = Some "ETARGET" \/ code error = Some "E404")) /\
  (forall m, outcome fetch = Fulfilled m -> exists b, isLatest m = Some b).
Proof.
  intros fetch. subst fetch.
  assert (Hlast : forall m,
            outcome (getPackageManifest pacote packageName packageVersion)
            = Fulfilled m -> exists b, isLatest m = Some b).
  { intros m Hm. apply getPackageManifest_fulfilled in Hm as (s & m0 & b & _ & _ & ->).
    by exists b. }
  rewrite getPackageManifest_calls.
  unfold getPackageManifest at 1 2. 
  destruct (manifestWithFallback pacote packageName packageVersion)
    as [[mp calls] lines] eqn:Hm. simpl.
  assert (Hp : forall b : bool,
            length (if b then [packageName] else []) <= 1 /\
            Forall (fun n => n = packageName) (if b then [packageName] else [])).
  { intros []; simpl; split; try lia; repeat constructor. }
  destruct (Hp (negb (String.eqb packageVersion "latest"))) as [Hp1 Hp2].
  unfold manifestWithFallback in Hm.
  destruct (pacote_manifest pacote (NameAtVersion packageName packageVersion))
    as [m0|error] eqn:H0.
  - inversion Hm; subst. simpl. repeat split; try done; try lia.
    + by repeat constructor.
  - destruct (bool_decide (code error = Some "ETARGET")) eqn:Het.
    + apply bool_decide_eq_true_1 in Het.
      destruct (distTags error) as [tags|]; inversion Hm; subst; simpl;
        repeat split; try done; try lia; try (by repeat constructor).
      intros _. exists error. split; [done | by left].
    + destruct (bool_decide (code error = Some "E404")) eqn:He4.
      * apply bool_decide_eq_true_1 in He4.
        destruct (negb (String.eqb packageVersion "latest")) eqn:Hv;
          inversion Hm; subst; simpl;
          repeat split; try done; try lia; try (by repeat constructor).
        intros _. exists error. split; [done | by right].
      * inversion Hm; subst. simpl.
        repeat split; try done; try lia; by repeat constructor.
Qed.

(** ** What a resolve pass leaves behind *)

Lemma forManifests_leaves_behind (pacote : Pacote)
    (resolve : Manifest -> Env -> option (list Resolved * Env)) (n : nat) :
  (forall m env out env', resolve m env = Some (out, env') ->
     leavesBehind pacote env out env') ->
  forall manifests env out env',
    Forall (fun m => servedBy pacote (emitted m)) manifests ->
    (forall m, m ∈ manifests -> key m ∈ resolvedPackages env) ->
    forManifests resolve n manifests env = Some (out, env') ->
    leavesBehind pacote env out env' /\
    (forall m, m ∈ manifests -> emitted m ∈ out).
Proof.
  intros Hrec. induction manifests as [|m ms IH];
    intros env out env' Hserved Hin Hloop; simpl in Hloop.
  - inversion Hloop; subst. split.
    + split; [exists []; by rewrite app_nil_r|]. split; [|constructor].
      simpl. by rewrite (right_id_L ∅ (∪)).
    + intros m Hm. by apply elem_of_nil in Hm.
  - destruct (resolve m _) as [[childs env1]|] eqn:Hcall; [|discriminate].
    apply Hrec in Hcall. destruct Hcall as ((lines1 & Hc1) & Hv1 & Hs1).
    simpl in Hc1, Hv1.
    match type of Hloop with
    | context [forManifests resolve n ms ?e] => set (env2 := e) in *
    end.
    assert (Hv2 : resolvedPackages env2 = resolvedPackages env1).
    { subst env2. by case_bool_decide. }
    assert (Hc2 : console env2 = console env1).
    { subst env2. by case_bool_decide. }
    destruct (forManifests resolve n ms env2) as [[more env3]|] eqn:Hrest;
      [|discriminate].
    inversion Hloop; subst out env'. clear Hloop.
    apply Forall_cons in Hserved as [Hm Hserved].
    apply IH in Hrest; [|done|].
    2:{ intros m' Hm'. rewrite Hv2, Hv1. apply elem_of_union. left.
        apply Hin. by right. }
    destruct Hrest as [((lines2 & Hc3) & Hv3 & Hs3) Hall].
    assert (Hkm : key m ∈ resolvedPackages env) by (apply Hin; left).
    split; [split; [|split]|].
    + exists (lines1 ++ lines2). by rewrite Hc3, Hc2, Hc1, app_assoc.
    + rewrite Hv3, Hv2, Hv1. apply set_eq. intros k.
      rewrite fmap_cons, fmap_app, list_to_set_cons, list_to_set_app_L.
      rewrite !elem_of_union, elem_of_singleton.
      change (r_key (emitted m)) with (key m) in *.
      split; [tauto|]. intros [Hk|[->|[Hk|Hk]]]; tauto.
    + apply Forall_cons. split; [done|]. by apply Forall_app.
    + intros m' Hm'. apply elem_of_cons in Hm' as [->|Hm'].
      * left.
      * right. apply elem_of_app. right. by apply Hall.
Qed.

Lemma newManifests_served (pacote : Pacote) (visited visited' : gset (string * string))
    (dependencies : list Edge) :
  Forall (fun m => servedBy pacote (emitted m))
         (newManifests visited' (fetchManifests pacote visited dependencies)).
Proof.
  apply Forall_forall. intros m Hm. apply newManifests_spec in Hm as [_ Hm].
  apply fetched_served in Hm as (e & s & m0 & b & _ & Hs & _ & ->).
  by exists s, m0, b.
Qed.

Lemma resolveDependencies_leaves_behind `{Semver} (pacote : Pacote) (fuel : nat) :
  forall manifest env out env',
    resolveDependencies fuel pacote manifest env = Some (out, env') ->
    leavesBehind pacote env out env'.
Proof.
  induction fuel as [|fuel IH]; intros manifest env out env' Hcall;
    simpl in Hcall; [discriminate|].
  destruct (getManifestDependencies manifest (options env)) as [|e es] eqn:Hdeps.
  - inversion Hcall; subst. split; [exists []; by rewrite app_nil_r|].
    split; [|constructor]. simpl. by rewrite (right_id_L ∅ (∪)).
  - simpl in Hcall.
    match type of Hcall with
    | forManifests _ _ ?ms (fold_left announce ?ms ?e1) = _ =>
        destruct (announce_all ms e1) as (_ & Hc & Hv & _)
    end.
    simpl in Hc, Hv.
    apply (forManifests_leaves_behind pacote _ _ IH) in Hcall.
    + destruct Hcall as [((lines & Hc') & Hv' & Hs') Hall].
      rewrite Hc in Hc'. rewrite Hv in Hv'.
      split; [|split; [|done]].
      * eexists. rewrite Hc', <- app_assoc. done.
      * rewrite Hv'. apply set_eq. intros k. rewrite !elem_of_union.
        split; [|tauto]. intros [[Hk|Hk]|Hk]; [|tauto|tauto].
        right. apply elem_of_list_to_set in Hk.
        apply list_elem_of_fmap in Hk as (m & -> & Hm).
        apply elem_of_list_to_set. apply Hall in Hm.
        apply list_elem_of_fmap. by exists (emitted m).
    + apply newManifests_served.
    + intros m Hm. rewrite Hv. apply elem_of_union. left.
      apply elem_of_list_to_set. by apply list_elem_of_fmap_2.
Qed.

(** X3: after a resolve pass the visited set is exactly what it was before,
    plus the emitted pairs: everything the resolver marks it also emits,
    and everything it emits it has marked. *)
Theorem visited_gains_the_output `{Semver} (pacote : Pacote) (fuel : nat)
    (manifest : Manifest) (env : Env) (out : list Resolved) (env' : Env) :
  resolveDependencies fuel pacote manifest env = Some (out, env') ->
  resolvedPackages env' = resolvedPackages env ∪ list_to_set (r_key <$> out).
Proof.
  intros Hcall. by apply resolveDependencies_leaves_behind in Hcall as (_ & Hv & _).
Qed.

Lemma visited_gains_the_output_witness :
  exists out env',
    @resolveDependencies semverModel 3 cycleRegistry
      (rootManifest [("a", "1.0.0")]) (freshEnv plainOptions) = Some (out, env') /\
    resolvedPackages env' = {[ ("a", "1.0.0"); ("b", "1.0.0") ]}.
Proof.
  destruct (@resolveDependencies semverModel 3 cycleRegistry
              (rootManifest [("a", "1.0.0")]) (freshEnv plainOptions))
    as [[out env']|] eqn:Hcall; [|vm_compute in Hcall; discriminate].
  exists out, env'. split; [reflexivity|].
  rewrite (@visited_gains_the_output semverModel cycleRegistry 3 _ _ out env' Hcall).
  assert (Hout : r_key <$> out = [("a", "1.0.0"); ("b", "1.0.0")])
    by (vm_compute in Hcall; by inversion Hcall).
  rewrite Hout. simpl. unfold visited_clean.
  apply set_eq. intros k.
  rewrite !elem_of_union, !elem_of_singleton, elem_of_empty. tauto.
Defined.

(** X4: every element the resolver emits is a manifest the registry served
    (its name and version are the registry's), and its [isLatest] is a
    boolean, never undefined. *)
Theorem output_served_by_registry `{Semver} (pacote : Pacote) (fuel : nat)
    (manifest : Manifest) (env : Env) (out : list Resolved) (env' : Env) :
  resolveDependencies fuel pacote manifest env = Some (out, env') ->
  forall r, r ∈ out ->
    exists s m b,
      pacote_manifest pacote s = Fulfilled m /\
      r = {| r_name := name m; r_version := version m; r_isLatest := Some b |}.
Proof.
  intros Hcall r Hr.
  apply resolveDependencies_leaves_behind in Hcall as (_ & _ & Hs).
  rewrite Forall_forall in Hs. destruct (Hs r Hr) as (s & m & b & Hm & ->).
  by exists s, m, b.
Qed.

Lemma output_served_by_registry_witness :
  exists s m b,
    pacote_manifest fallbackRegistry s = Fulfilled m /\
    {| r_name := "x"; r_version := "1.0.0"; r_isLatest := Some true |}
    = {| r_name := name m; r_version := version m; r_isLatest := Some b |}.
Proof.
  destruct (@resolveDependencies semverModel 2 fallbackRegistry
              (rootManifest [("x", "9.9.9")]) (freshEnv plainOptions))
    as [[out env']|] eqn:Hcall; [|vm_compute in Hcall; discriminate].
  apply (@output_served_by_registry semverModel fallbackRegistry 2 _ _ out env' Hcall).
  vm_compute in Hcall. inversion Hcall. left.
Defined.

(** X5: the resolver is lenient and loses no edge silently.  For every edge
    of the manifest it is given, one of three things holds after the call:
    the edge was skipped because its name and query version were already in
    the visited set; or its manifest could not be fetched and the error is
    on the console; or its manifest was fetched, its real pair is in the
    visited set, and it was emitted by this call unless the pair had been
    visited before. *)
Theorem every_edge_accounted_for `{Semver} (pacote : Pacote) (fuel : nat)
    (manifest : Manifest) (env : Env) (out : list Resolved) (env' : Env) :
  resolveDependencies fuel pacote manifest env = Some (out, env') ->
  forall e, e ∈ getManifestDependencies manifest (options env) ->
    (edge_name e, edge_version e) ∈ resolvedPackages env \/
    (exists error,
       outcome (getPackageManifest pacote (edge_name e) (edge_version e))
       = Rejected error /\
       handlerError error ∈ console env') \/
    (exists m,
       outcome (getPackageManifest pacote (edge_name e) (edge_version e))
       = Fulfilled m /\
       key m ∈ resolvedPackages env' /\
       (key m ∈ resolvedPackages env \/ emitted m ∈ out)).
Proof.
  intros Hcall e He.
  pose proof (resolveDependencies_leaves_behind pacote fuel _ _ _ _ Hcall)
    as (_ & Hgain & _).
  destruct fuel as [|fuel]; [discriminate|]. simpl in Hcall.
  destruct (getManifestDependencies manifest (options env)) as [|e0 es] eqn:Hdeps;
    [by apply elem_of_nil in He|].
  destruct (decide ((edge_name e, edge_version e) ∈ resolvedPackages env))
    as [Hseen|Hseen]; [by left|right].
  simpl in Hcall.
  remember (fetchManifests pacote (resolvedPackages env) (e0 :: es)) as fetched
    eqn:Hfetched.
  assert (Hfetch : caught (getPackageManifest pacote (edge_name e) (edge_version e))
                   ∈ fetched).
  { rewrite Hfetched. unfold fetchManifests.
    apply list_elem_of_fmap. exists e. split; [done|].
    apply list_elem_of_filter. split; [|done]. by apply not_visited. }
  match type of Hcall with
  | forManifests _ _ ?ms (fold_left announce ?ms ?e1) = _ =>
      destruct (announce_all ms e1) as (_ & Hc & Hv & _)
  end.
  simpl in Hc, Hv.
  apply (forManifests_leaves_behind pacote _ _
           (resolveDependencies_leaves_behind pacote fuel)) in Hcall.
  2:{ rewrite Hfetched. apply newManifests_served. }
  2:{ intros m Hm. rewrite Hv. apply elem_of_union. left.
      apply elem_of_list_to_set. by apply list_elem_of_fmap_2. }
  destruct Hcall as [((lines & Hc') & _ & _) Hall]. rewrite Hc in Hc'.
  unfold caught in Hfetch.
  destruct (outcome (getPackageManifest pacote (edge_name e) (edge_version e)))
    as [m|error] eqn:Hout.
  - right. exists m. split; [done|].
    destruct (decide (key m ∈ resolvedPackages env)) as [Hold|Hnew].
    + split; [|by left]. rewrite Hgain. apply elem_of_union. by left.
    + assert (Hm : m ∈ newManifests (resolvedPackages env) fetched).
      { apply newManifests_spec. split; [done|].
        apply list_elem_of_omap. eexists. split; [exact Hfetch|done]. }
      apply Hall in Hm. split; [|by right].
      rewrite Hgain. apply elem_of_union. right. apply elem_of_list_to_set.
      apply list_elem_of_fmap. by exists (emitted m).
  - left. exists error. split; [done|]. rewrite Hc'.
    apply elem_of_app. left. apply elem_of_app. right.
    apply list_elem_of_In, in_concat. eexists.
    split; [apply list_elem_of_In; by apply list_elem_of_fmap_2|].
    apply list_elem_of_In. simpl. apply elem_of_app. right.
    by apply list_elem_of_singleton.
Qed.

Lemma every_edge_accounted_for_witness :
  exists error,
    outcome (getPackageManifest noPackumentRegistry "a" "1.0.0") = Rejected error /\
    exists out env',
      @resolveDependencies semverModel 2 noPackumentRegistry
        (rootManifest [("a", "1.0.0")]) (freshEnv plainOptions) = Some (out, env') /\
      handlerError error ∈ console env'.
Proof.
  destruct (@resolveDependencies semverModel 2 noPackumentRegistry
              (rootManifest [("a", "1.0.0")]) (freshEnv plainOptions))
    as [[out env']|] eqn:Hcall; [|vm_compute in Hcall; discriminate].
  destruct (@every_edge_accounted_for semverModel noPackumentRegistry 2 _ _ out env'
              Hcall {| edge_name := "a"; edge_version := "1.0.0" |})
    as [Hseen | [(error & Hout & Hprinted) | (m & Hout & _)]].
  - vm_compute. left.
  - vm_compute in Hseen. discriminate.
  - exists error. split; [exact Hout|]. exists out, env'. by split.
  - vm_compute in Hout. discriminate.
Defined.

(** ** Manifests whose dependencies are leaves *)

Lemma forManifests_of_leaves
    (resolve : Manifest -> Env -> option (list Resolved * Env)) (n : nat) :
  forall manifests env,
    (forall m env0, m ∈ manifests ->
       sameSettings (options env) (options env0) ->
       resolve m env0 = Some ([], env0)) ->
    exists env', forManifests resolve n manifests env
                 = Some (emitted <$> manifests, env') /\
                 sameSettings (options env) (options env').
Proof.
  induction manifests as [|m ms IH]; intros env Hleaf; simpl.
  - exists env. split; [done | apply sameSettings_refl].
  - rewrite (Hleaf m) by (first [left | by repeat split]).
    match goal with
    | |- context [forManifests resolve n ms ?e] => set (env2 := e)
    end.
    assert (Hs2 : sameSettings (options env) (options env2)).
    { subst env2. case_bool_decide; by repeat split. }
    destruct (IH env2) as (env' & -> & Hs').
    + intros m' env0 Hm' Hs0. apply Hleaf; [by right|].
      by eapply sameSettings_trans.
    + exists env'. split; [done|]. by eapply sameSettings_trans.
Qed.

(** X6: when every manifest fetched for the edges of a manifest has no
    dependencies of its own, the resolver returns exactly the newly fetched
    manifests, one element each, in the order of the edges (two levels of
    recursion suffice).  In particular a seed of a package without
    dependencies yields exactly one element. *)
Theorem leaves_resolve_to_themselves `{Semver} (pacote : Pacote) (fuel : nat)
    (manifest : Manifest) (env : Env) :
  (forall e m,
     e ∈ getManifestDependencies manifest (options env) ->
     outcome (getPackageManifest pacote (edge_name e) (edge_version e)) = Fulfilled m ->
     getManifestDependencies m (options env) = []) ->
  exists env',
    resolveDependencies (S (S fuel)) pacote manifest env
    = Some (emitted <$>
              newManifests (resolvedPackages env)
                (fetchManifests pacote (resolvedPackages env)
                   (getManifestDependencies manifest (options env))),
            env').
Proof.
  intros Hleaves.
  change (resolveDependencies (S (S fuel)) pacote manifest env)
    with (let dependencies := getManifestDependencies manifest (options env) in
          match dependencies with
          | [] => Some ([], env)
          | _ :: _ =>
              let env0 := with_options env (init_counters (options env)) in
              let fetched :=
                fetchManifests pacote (resolvedPackages env0) dependencies in
              let env1 := print env0 (concat (snd <$> fetched)) in
              let manifests := newManifests (resolvedPackages env1) fetched in
              let env2 := fold_left announce manifests env1 in
              forManifests (resolveDependencies (S fuel) pacote)
                           (length dependencies) manifests env2
          end).
  destruct (getManifestDependencies manifest (options env)) as [|e es] eqn:Hdeps.
  - by exists env.
  - cbv zeta. simpl resolvedPackages.
    match goal with
    | |- context [forManifests ?r ?n ?ms ?e2] =>
        destruct (forManifests_of_leaves r n ms e2) as (env' & Hloop & _);
        [|by exists env']
    end.
    intros m env0 Hm Hs0.
    apply newManifests_spec in Hm as [_ Hm].
    apply list_elem_of_omap in Hm as (x & Hx & Hm).
    unfold fetchManifests in Hx. apply list_elem_of_fmap in Hx as (e1 & -> & He1).
    apply list_elem_of_filter in He1 as [_ He1].
    unfold caught in Hm.
    destruct (outcome (getPackageManifest pacote (edge_name e1) (edge_version e1)))
      as [m'|err] eqn:Hout; [|discriminate].
    simpl in Hm. inversion Hm; subst m'.
    assert (Hnone : getManifestDependencies m (options env0) = []).
    { rewrite <- (Hleaves e1 m He1 Hout).
      apply getManifestDependencies_settings.
      match type of Hs0 with
      | sameSettings (options (fold_left announce ?ms ?e1)) _ =>
          destruct (announce_all ms e1) as (Ho & _); rewrite Ho in Hs0
      end.
      unfold sameSettings in *. simpl in Hs0.
      destruct Hs0 as (?&?&?&?&?). repeat split; congruence. }
    simpl. by rewrite Hnone.
Qed.

Lemma leaves_resolve_to_themselves_witness :
  exists env',
    @resolveDependencies semverModel 2 singleRegistry
      (rootManifest [("a", "1.0.0")]) (freshEnv plainOptions)
    = Some ([ {| r_name := "a"; r_version := "1.0.0"; r_isLatest := Some true |} ],
            env').
Proof.
  destruct (@leaves_resolve_to_themselves semverModel singleRegistry 0
              (rootManifest [("a", "1.0.0")]) (freshEnv plainOptions))
    as (env' & Hcall).
  - intros e m He Hout. vm_compute in He.
    apply list_elem_of_singleton in He. subst e.
    vm_compute in Hout. inversion Hout. reflexivity.
  - exists env'. rewrite Hcall. reflexivity.
Defined.

(** ** The downloader and the tarball cache *)

Lemma not_cached (n v : string) (s : gset (string * string)) :
  negb (cache_exist n v s) <-> (n, v) ∉ s.
Proof. unfold cache_exist. by rewrite negb_True, bool_decide_spec. Qed.


(** X8: running the downloader again with the cache it left behind: every
    element the second run would download is one the first run tried and
    failed to write; so after a run in which every tarball was written, a
    second run over the same input downloads nothing. *)
Theorem second_run_downloads_only_failures (pacote : Pacote)
    (packages : list Resolved) (options : DownloadOptions) (schedule : list nat)
    (env : DownloadEnv) :
  schedule ≡ₚ seq 0 (length (packagesToDownload options (cache env) packages)) ->
  useCache options = true ->
  let batch := downloadPackages pacote packages options schedule env in
  (forall p, p ∈ packagesToDownload options (cache (after batch)) packages ->
     p ∈ packagesToDownload options (cache env) packages /\
     written pacote options p = false) /\
  ((forall p, p ∈ packages -> written pacote options p = true) ->
   packagesToDownload options (cache (after batch)) packages = []).
Proof.
  intros Hperm Hu batch.
  assert (Hfirst : forall p,
            p ∈ packagesToDownload options (cache (after batch)) packages ->
            p ∈ packagesToDownload options (cache env) packages /\
            written pacote options p = false).
  { intros p. unfold packagesToDownload at 1 2. rewrite Hu.
    rewrite !list_elem_of_filter, !not_cached. intros [Hnot Hp].
    assert (Hkept : (r_name p, r_version p) ∉ cache env).
    { intros Hc. apply Hnot. subst batch. unfold downloadPackages. simpl.
      apply handlers_cache. by left. }
    split; [done|].
    destruct (written pacote options p) eqn:Hw; [|done].
    exfalso. apply Hnot. subst batch. unfold downloadPackages. simpl.
    apply handlers_cache. right. split; [done|].
    assert (Hin : p ∈ packagesToDownload options (cache env) packages).
    { unfold packagesToDownload. rewrite Hu. apply list_elem_of_filter.
      split; [|done]. by apply not_cached. }
    apply list_elem_of_lookup_1 in Hin as [i Hi].
    exists i, {| r_name := r_name p; r_version := r_version p;
                 r_isLatest := Some (truthy (r_isLatest p)) |}.
    split; [|split; [|done]].
    - rewrite Hperm. apply list_elem_of_In, in_seq.
      apply lookup_lt_Some in Hi. lia.
    - rewrite list_lookup_fmap, Hi. simpl.
      by rewrite downloadPackageTarball_written. }
  split; [exact Hfirst|].
  intros Hall.
  remember (packagesToDownload options (cache (after batch)) packages)
    as second eqn:Hsecond.
  destruct second as [|p rest]; [done|].
  assert (Hp : p ∈ packagesToDownload options (cache (after batch)) packages)
    by (rewrite <- Hsecond; left).
  pose proof Hp as Hp'. rewrite Hsecond in Hfirst. apply Hfirst in Hp' as [_ Hw].
  unfold packagesToDownload in Hp. rewrite Hu in Hp.
  apply list_elem_of_filter in Hp as [_ Hp]. rewrite (Hall p Hp) in Hw. discriminate.
Qed.

Lemma second_run_downloads_only_failures_witness :
  packagesToDownload cachingDownload
    (cache (after (downloadPackages failingWrites twoPackages cachingDownload [1; 0]
                     emptyDownloadEnv)))
    twoPackages
  = [ {| r_name := "bad"; r_version := "1.0.0"; r_isLatest := Some false |} ] /\
  written failingWrites cachingDownload
    {| r_name := "bad"; r_version := "1.0.0"; r_isLatest := Some false |} = false.
Proof.
  assert (Hperm : [1; 0] ≡ₚ
            seq 0 (length (packagesToDownload cachingDownload
                             (cache emptyDownloadEnv) twoPackages))).
  { vm_compute. apply perm_swap. }
  destruct (second_run_downloads_only_failures failingWrites twoPackages
              cachingDownload [1; 0] emptyDownloadEnv Hperm eq_refl) as [Hfirst _].
  assert (Hsecond :
    packagesToDownload cachingDownload
      (cache (after (downloadPackages failingWrites twoPackages cachingDownload [1; 0]
                       emptyDownloadEnv)))
      twoPackages
    = [ {| r_name := "bad"; r_version := "1.0.0"; r_isLatest := Some false |} ])
    by (vm_compute; reflexivity).
  split; [exact Hsecond|].
  apply Hfirst. rewrite Hsecond. left.
Defined.

(** X9: two packages whose names differ only in a slash against a hyphen
    (at the first slash) are written to the same file: the file name does not
    determine the package. *)
Theorem slash_and_hyphen_share_a_file (destination scope pkg packageVersion : string)
    (latestFlag : option bool) :
  occurs "/" scope = false -> occurs "/" pkg = false ->
  tarballPath destination (scope +:+ String "/" pkg) packageVersion latestFlag
  = tarballPath destination (scope +:+ String "-" pkg) packageVersion latestFlag.
Proof.
  intros Hs Hp. unfold tarballPath. do 2 f_equal.
  rewrite replace_first by done.
  assert (Hnone : occurs "/" (scope +:+ String "-" pkg) = false).
  { clear -Hs Hp. induction scope as [|a s IH]; simpl in *.
    - done.
    - destruct (Ascii.eqb a "/"); [discriminate|]. by apply IH. }
  by rewrite (replace_absent "/" "-" _ Hnone).
Qed.

Lemma slash_and_hyphen_share_a_file_witness :
  tarballPath "packages" "a/b" "1.0.0" None = "packages/a-b-1.0.0.tgz" /\
  tarballPath "packages" "a-b" "1.0.0" None = "packages/a-b-1.0.0.tgz".
Proof.
  pose proof (slash_and_hyphen_share_a_file "packages" "a" "b" "1.0.0" None
                eq_refl eq_refl) as Hsame.
  split; [etrans; [exact Hsame|]|]; reflexivity.
Defined.

(** ** The progress the downloader reports *)

(** The handlers run over any positions in any order: the counter grows
    by the number of fulfilled downloads among them, and the logger receives
    one event per fulfilled download, carrying the successive fractions. *)
Lemma handlers_progress (options : DownloadOptions) (total : nat)
    (started : list (Settled Resolved)) (schedule : list nat) (e : DownloadEnv) :
  let e' := fold_left
              (fun e i => match started !! i with
                          | Some d => chainEffect options total d e
                          | None => e
                          end) schedule e in
  counter e'
  = counter e
    + length (filter (fun i => default false (fulfilled <$> started !! i)) schedule) /\
  (dl_logger options = true ->
   exists events,
     dl_logged e' = dl_logged e ++ events /\
     snd <$> events
     = percentOf total <$> seq (S (counter e)) (counter e' - counter e)) /\
  (dl_logger options = false -> dl_logged e' = dl_logged e).
Proof.
  revert e. induction schedule as [|i schedule IH]; intros e.
  - simpl. split; [lia|]. split; [|done]. intros _. exists [].
    rewrite Nat.sub_diag, app_nil_r. done.
  - cbn [fold_left]. rewrite filter_cons.
    set (e1 := match started !! i with
               | Some d => chainEffect options total d e
               | None => e
               end).
    destruct (IH e1) as (Hc & Hl & Hn). clear IH.
    set (rest := length (filter
                   (fun i0 => default false (fulfilled <$> started !! i0))
                   schedule)) in *.
    assert (Hstep :
      (default false (fulfilled <$> started !! i) = true /\
       counter e1 = S (counter e) /\
       exists msg,
         dl_logged e1
         = if dl_logger options
           then dl_logged e ++ [(msg, percentOf total (S (counter e)))]
           else dl_logged e) \/
      (default false (fulfilled <$> started !! i) = false /\
       counter e1 = counter e /\ dl_logged e1 = dl_logged e)).
    { subst e1. destruct (started !! i) as [[res|err]|]; simpl.
      - left. split; [done|]. split; [done|]. by eexists.
      - right. by repeat split.
      - right. by repeat split. }
    destruct Hstep as [(Hf & Hc1 & msg & Hl1) | (Hf & Hc1 & Hl1)]; rewrite Hf.
    + rewrite decide_True by done. cbn [length]. split; [lia|]. split.
      * intros Hlog. destruct (Hl Hlog) as (events & Hev & Hps).
        rewrite Hl1, Hlog, <- app_assoc in Hev.
        eexists. split; [exact Hev|]. csimpl. rewrite Hps.
        rewrite Hc, Hc1.
        replace (S (counter e) + rest - counter e) with (S rest) by lia.
        replace (S (counter e) + rest - S (counter e)) with rest by lia.
        done.
      * intros Hlog. rewrite (Hn Hlog), Hl1. by rewrite Hlog.
    + rewrite decide_False by (intros []). split; [lia|]. split.
      * intros Hlog. destruct (Hl Hlog) as (events & Hev & Hps).
        exists events. rewrite Hev, Hl1. split; [done|]. by rewrite Hps, Hc1.
      * intros Hlog. by rewrite (Hn Hlog).
Qed.

Lemma count_by_position {A : Type} (f : A -> bool) (l : list A) :
  length (filter (fun i => default false (f <$> l !! i)) (seq 0 (length l)))
  = length (filter (fun a => f a) l).
Proof.
  induction l as [|a l IH]; [done|].
  cbn [length seq]. rewrite <- fmap_S_seq. rewrite !filter_cons. simpl.
  assert (Hshift :
    length (filter (fun i => default false (f <$> (a :: l) !! i))
                   (S <$> seq 0 (length l)))
    = length (filter (fun a0 => f a0) l)).
  { rewrite <- IH. clear IH. generalize (seq 0 (length l)). intros positions.
    induction positions as [|i positions IHp]; [done|].
    rewrite fmap_cons, !filter_cons. simpl.
    destruct (decide (default false (f <$> l !! i))); simpl; by rewrite IHp. }
  destruct (decide (f a)); simpl; by rewrite Hshift.
Qed.

(** X10: the downloader counts successes only.  After a batch the counter
    is the number of elements whose tarball was written, and a logger has
    received one event per written element, the [k]-th of them carrying
    [(1 / total) * k] where [total] is the number of elements to download,
    in whatever order the downloads settle (percents are exact numbers
    here, the rounding of floating point aside). *)
Theorem progress_counts_successes (pacote : Pacote) (packages : list Resolved)
    (options : DownloadOptions) (schedule : list nat) (env : DownloadEnv) :
  schedule ≡ₚ seq 0 (length (packagesToDownload options (cache env) packages)) ->
  let toDownload := packagesToDownload options (cache env) packages in
  let batch := downloadPackages pacote packages options schedule env in
  counter (after batch)
  = length (filter (fun p => written pacote options p) toDownload) /\
  (dl_logger options = true ->
   exists events,
     dl_logged (after batch) = dl_logged env ++ events /\
     snd <$> events
     = percentOf (length toDownload) <$> seq 1 (counter (after batch))).
Proof.
  intros Hperm toDownload batch. subst batch. unfold downloadPackages.
  fold toDownload. simpl.
  match goal with
  | |- context [fold_left ?f schedule ?e0] =>
      pose proof (handlers_progress options (length toDownload)
                    ((fun p => downloadPackageTarball pacote (r_name p) (r_version p)
                                 (tarballOptionsFor options p)) <$> toDownload)
                    schedule e0) as (Hc & Hl & _)
  end.
  simpl in Hc, Hl.
  assert (Hcount : counter
            (fold_left
               (fun e i =>
                  match ((fun p => downloadPackageTarball pacote (r_name p)
                                     (r_version p) (tarballOptionsFor options p))
                           <$> toDownload) !! i with
                  | Some d => chainEffect options (length toDownload) d e
                  | None => e
                  end) schedule
               {| cache := cache env; counter := 0; dl_logged := dl_logged env;
                  dl_console := dl_console env |})
          = length (filter (fun p => written pacote options p) toDownload)).
  { rewrite Hc. rewrite Hperm. unfold toDownload at 2.
    rewrite <- (length_fmap (fun p => downloadPackageTarball pacote (r_name p)
                               (r_version p) (tarballOptionsFor options p))).
    fold toDownload. rewrite (count_by_position fulfilled).
    clear. induction toDownload as [|p l IH]; [done|].
    rewrite fmap_cons, !filter_cons.
    assert (Hsame : fulfilled (downloadPackageTarball pacote (r_name p) (r_version p)
                                 (tarballOptionsFor options p))
                    = written pacote options p).
    { unfold written, requestFor, downloadPackageTarball.
      by destruct (pacote_tarball_toFile pacote _ _). }
    rewrite Hsame.
    destruct (decide (written pacote options p)); simpl; by rewrite IH. }
  split; [exact Hcount|].
  intros Hlog. destruct (Hl Hlog) as (events & Hev & Hps).
  exists events. split; [done|]. by rewrite Hps, Nat.sub_0_r.
Qed.

Lemma progress_counts_successes_witness :
  counter (after (downloadPackages failingWrites twoPackages cachingDownload [1; 0]
                    emptyDownloadEnv)) = 1 /\
  snd <$> dl_logged (after (downloadPackages failingWrites twoPackages
                              cachingDownload [1; 0] emptyDownloadEnv))
  = [ Qmake 1 2 ].
Proof.
  assert (Hperm : [1; 0] ≡ₚ
            seq 0 (length (packagesToDownload cachingDownload
                             (cache emptyDownloadEnv) twoPackages))).
  { vm_compute. apply perm_swap. }
  destruct (progress_counts_successes failingWrites twoPackages cachingDownload
              [1; 0] emptyDownloadEnv Hperm) as (Hc & Hl).
  assert (Hone : counter (after (downloadPackages failingWrites twoPackages
                    cachingDownload [1; 0] emptyDownloadEnv)) = 1)
    by (rewrite Hc; vm_compute; reflexivity).
  split; [exact Hone|].
  destruct (Hl eq_refl) as (events & Hev & Hps).
  rewrite Hev, fmap_app, Hps, Hone. vm_compute. reflexivity.
Defined.

(** ** getNpmTopPackages: the pages it asks for *)

Lemma topPages_requests (search : Z -> Z -> Settled (list SearchObject))
    (logs : bool) (packagesQuantity chunks lastChunk : Z) :
  alwaysAnswers search ->
  forall iterations index packages,
    top_requests (topPages search logs packagesQuantity chunks lastChunk
                    iterations index packages)
    = (fun k =>
         (if (index + Z.of_nat k <? chunks)%Z || (lastChunk =? 0)%Z
          then CHUNK_SIZE else lastChunk,
          (index + Z.of_nat k - 1) * CHUNK_SIZE)%Z) <$> seq 0 iterations.
Proof.
  intros Hans. induction iterations as [|n IH]; intros index packages; [done|].
  cbn [topPages seq].
  destruct (Hans (if (index <? chunks)%Z || (lastChunk =? 0)%Z
                  then CHUNK_SIZE else lastChunk)
                 ((index - 1) * CHUNK_SIZE)%Z) as [objects ->].
  cbn [top_requests]. rewrite IH, fmap_cons, <- fmap_S_seq, <- list_fmap_compose.
  f_equal; [by rewrite Z.add_0_r|].
  apply list_fmap_ext. intros i k _. simpl.
  by replace (index + 1 + Z.of_nat k)%Z with (index + Z.of_nat (S k))%Z by lia.
Qed.

Lemma sumZ_app (l k : list Z) : sumZ (l ++ k) = (sumZ l + sumZ k)%Z.
Proof. induction l as [|x l IH]; simpl; [done|]. rewrite IH. lia. Qed.

Lemma sumZ_constant (c : Z) (f : nat -> Z) (n : nat) :
  (forall k, k < n -> f k = c) -> sumZ (f <$> seq 0 n) = (c * Z.of_nat n)%Z.
Proof.
  induction n as [|n IH]; intros Hf; [simpl; lia|].
  rewrite seq_S, fmap_app, sumZ_app, IH by (intros k Hk; apply Hf; lia).
  simpl. rewrite Hf by lia. lia.
Qed.

Lemma pages_of_a_positive_quantity
    (search : Z -> Z -> Settled (list SearchObject)) (quantity : option Z)
    (logs : bool) :
  alwaysAnswers search ->
  let wanted := Z.min (default 1000%Z quantity) 5250 in
  let run := getNpmTopPackages search quantity logs in
  (0 < wanted)%Z ->
  sumZ (fst <$> top_requests run) = wanted /\
  Forall (fun rq => (1 <= fst rq <= 250)%Z) (top_requests run) /\
  (forall i rq, top_requests run !! i = Some rq ->
     snd rq = (250 * Z.of_nat i)%Z) /\
  Z.of_nat (length (top_requests run)) = ceil_div wanted 250 /\
  length (top_requests run) <= 21.
Proof.
  intros Hans wanted run. subst run. unfold getNpmTopPackages. fold wanted.
  assert (Hwanted : (wanted <= 5250)%Z) by (unfold wanted; lia).
  intros Hpos. rewrite topPages_requests by done.
  set (chunks := ceil_div wanted CHUNK_SIZE).
  set (lastChunk := Z.rem wanted CHUNK_SIZE).
  assert (Hchunks : (1 <= chunks <= 21)%Z /\
                    (lastChunk = 0 -> wanted = 250 * chunks)%Z /\
                    (lastChunk <> 0 ->
                     0 < lastChunk < 250 /\ wanted = 250 * (chunks - 1) + lastChunk)%Z).
  { subst chunks lastChunk. unfold ceil_div, CHUNK_SIZE.
    Z.to_euclidean_division_equations. lia. }
  destruct Hchunks as (Hc & Hzero & Hrest).
  destruct (Z.to_nat chunks) as [|n] eqn:Hn; [lia|].
  assert (Hchunks' : chunks = Z.of_nat (S n)) by lia.
  split; [|split; [|split; [|split]]].
  - rewrite <- list_fmap_compose, seq_S, fmap_app, sumZ_app.
    rewrite (sumZ_constant 250).
    + simpl. rewrite Z.add_0_r.
      destruct (1 + Z.of_nat n <? chunks)%Z eqn:Hlt; [lia|]. simpl.
      destruct (lastChunk =? 0)%Z eqn:Hl.
      * apply Z.eqb_eq in Hl. unfold CHUNK_SIZE. specialize (Hzero Hl). lia.
      * apply Z.eqb_neq in Hl. specialize (Hrest Hl). lia.
    + intros k Hk. simpl.
      destruct (1 + Z.of_nat k <? chunks)%Z eqn:Hlt; [done|]. lia.
  - apply Forall_fmap, Forall_forall. intros k Hk. simpl.
    destruct ((1 + Z.of_nat k <? chunks)%Z || (lastChunk =? 0)%Z) eqn:Hcase;
      unfold CHUNK_SIZE; [lia|].
    apply orb_false_iff in Hcase as [_ Hl]. apply Z.eqb_neq in Hl.
    specialize (Hrest Hl). lia.
  - intros i rq Hi. rewrite list_lookup_fmap in Hi.
    destruct (seq 0 (S n) !! i) as [k|] eqn:Hk; [|discriminate].
    apply lookup_seq in Hk as [-> _]. simpl in Hi. inversion Hi; subst.
    simpl. unfold CHUNK_SIZE. lia.
  - rewrite length_fmap, length_seq.
    change (ceil_div wanted 250) with chunks. lia.
  - rewrite length_fmap, length_seq. lia.
Qed.

(** X11: asked for [quantity] top packages, the search is paged without
    gaps or overlaps.  The quantity is clamped to 5250; when it is positive
    and no request fails, the sizes of the requests add up to the clamped
    quantity, every size is between 1 and 250, the request at position [i]
    starts at offset [250 * i], and there are ceil(quantity / 250) requests,
    at most 21.  A quantity of zero or less sends no request and returns no
    package. *)
Theorem top_packages_are_paged (search : Z -> Z -> Settled (list SearchObject))
    (quantity : option Z) (logs : bool) :
  alwaysAnswers search ->
  let wanted := Z.min (default 1000%Z quantity) 5250 in
  let run := getNpmTopPackages search quantity logs in
  ((wanted <= 0)%Z ->
     top_requests run = [] /\ top_result run = Fulfilled [] /\ top_logged run = []) /\
  ((0 < wanted)%Z ->
     sumZ (fst <$> top_requests run) = wanted /\
     Forall (fun rq => (1 <= fst rq <= 250)%Z) (top_requests run) /\
     (forall i rq, top_requests run !! i = Some rq ->
        snd rq = (250 * Z.of_nat i)%Z) /\
     Z.of_nat (length (top_requests run)) = ceil_div wanted 250 /\
     length (top_requests run) <= 21).
Proof.
  intros Hans wanted run. split.
  - intros Hle. subst run. unfold getNpmTopPackages. fold wanted.
    assert (Z.to_nat (ceil_div wanted CHUNK_SIZE) = 0) as ->; [|done].
    unfold ceil_div, CHUNK_SIZE. Z.to_euclidean_division_equations. lia.
  - by apply pages_of_a_positive_quantity.
Qed.

Lemma top_packages_are_paged_witness :
  top_requests (getNpmTopPackages constantSearch (Some 251%Z) false)
  = [ (250, 0); (1, 250) ]%Z /\
  sumZ (fst <$> top_requests (getNpmTopPackages constantSearch (Some 5300%Z) false))
  = 5250%Z.
Proof.
  assert (Hans : alwaysAnswers constantSearch) by (intros s f; by eexists).
  destruct (top_packages_are_paged constantSearch (Some 5300%Z) false Hans)
    as [_ Hpaged].
  destruct Hpaged as (Hsum & _); [reflexivity|].
  split; [vm_compute; reflexivity | exact Hsum].
Defined.

(** ** getNpmTopPackages: what it returns *)

Lemma topPages_result (search : Z -> Z -> Settled (list SearchObject))
    (logs : bool) (packagesQuantity chunks lastChunk : Z) :
  forall iterations index packages,
    let run := topPages search logs packagesQuantity chunks lastChunk
                 iterations index packages in
    match top_result run with
    | Fulfilled l =>
        l = packages ++ concat (pageOf search <$> top_requests run) /\
        Forall (fun rq => fulfilled (search (fst rq) (snd rq)) = true)
               (top_requests run)
    | Rejected error =>
        exists earlier last,
          top_requests run = earlier ++ [last] /\
          search (fst last) (snd last) = Rejected error /\
          Forall (fun rq => fulfilled (search (fst rq) (snd rq)) = true) earlier
    end.
Proof.
  induction iterations as [|n IH]; intros index packages.
  - simpl. split; [by rewrite app_nil_r | constructor].
  - cbn [topPages]. cbv zeta.
    set (size := if (index <? chunks)%Z || (lastChunk =? 0)%Z
                 then CHUNK_SIZE else lastChunk).
    set (from := ((index - 1) * CHUNK_SIZE)%Z).
    destruct (search size from) as [objects|error] eqn:Hsearch.
    + cbn [top_result top_requests].
      specialize (IH (index + 1)%Z (packages ++ (newPackage <$> objects))).
      cbv zeta in IH.
      destruct (top_result (topPages search logs packagesQuantity chunks lastChunk
                              n (index + 1) (packages ++ (newPackage <$> objects))))
        as [l|error].
      * destruct IH as [-> Hall]. split.
        -- rewrite fmap_cons. cbn [concat]. unfold pageOf at 2. cbn [fst snd].
           rewrite Hsearch. by rewrite <- app_assoc.
        -- constructor; [|done]. cbn [fst snd]. by rewrite Hsearch.
      * destruct IH as (earlier & last & -> & Hlast & Hall).
        exists ((size, from) :: earlier), last. split; [done|]. split; [done|].
        constructor; [|done]. cbn [fst snd]. by rewrite Hsearch.
    + cbn [top_result top_requests]. exists [], (size, from).
      split; [done|]. split; [done | constructor].
Qed.

(** X12: the packages come back in page order, and the first failure ends
    the call.  A fulfilled call returns the objects of its requests, request
    after request, each kept as [name], [version] and [score]; every request
    it sent was answered.  A rejected call carries the error of its last
    request, which is the only one that failed: nothing is requested after a
    failure and the packages fetched so far are not returned. *)
Theorem top_packages_follow_the_pages
    (search : Z -> Z -> Settled (list SearchObject)) (quantity : option Z)
    (logs : bool) :
  let run := getNpmTopPackages search quantity logs in
  match top_result run with
  | Fulfilled l =>
      l = concat (pageOf search <$> top_requests run) /\
      Forall (fun rq => fulfilled (search (fst rq) (snd rq)) = true)
             (top_requests run)
  | Rejected error =>
      exists earlier last,
        top_requests run = earlier ++ [last] /\
        search (fst last) (snd last) = Rejected error /\
        Forall (fun rq => fulfilled (search (fst rq) (snd rq)) = true) earlier
  end.
Proof.
  intros run. subst run. unfold getNpmTopPackages. apply topPages_result.
Qed.

Lemma length_pages (search : Z -> Z -> Settled (list SearchObject))
    (rqs : list (Z * Z)) :
  fullPages search ->
  Forall (fun rq => (1 <= fst rq <= 250)%Z) rqs ->
  Z.of_nat (length (concat (pageOf search <$> rqs))) = sumZ (fst <$> rqs).
Proof.
  intros Hfull. induction 1 as [|rq rqs Hrq _ IH]; [done|].
  rewrite !fmap_cons. cbn [concat sumZ fold_right]. rewrite length_app.
  fold (sumZ (fst <$> rqs)). rewrite Nat2Z.inj_add, IH. f_equal.
  unfold pageOf. destruct (Hfull (fst rq) (snd rq)) as (objects & -> & Hlen).
  rewrite length_fmap. apply Hlen. lia.
Qed.

Lemma topPages_last_event (search : Z -> Z -> Settled (list SearchObject))
    (packagesQuantity chunks lastChunk : Z) :
  forall iterations index packages l,
    top_result (topPages search true packagesQuantity chunks lastChunk
                  (S iterations) index packages) = Fulfilled l ->
    last (snd <$> top_logged (topPages search true packagesQuantity chunks lastChunk
                                (S iterations) index packages))
    = Some (Qred (Qdiv (inject_Z (Z.of_nat (length l))) (inject_Z packagesQuantity))).
Proof.
  induction iterations as [|n IH]; intros index packages l.
  - cbn [topPages]. cbv zeta.
    destruct (search _ _) as [objects|error]; cbn [top_result top_logged];
      [|discriminate].
    intros [= <-]. done.
  - remember (S n) as m eqn:Hm. cbn [topPages]. cbv zeta.
    destruct (search _ _) as [objects|error]; cbn [top_result top_logged];
      [|discriminate].
    intros Hres. rewrite fmap_cons. subst m. specialize (IH _ _ _ Hres).
    destruct (snd <$> top_logged (topPages search true packagesQuantity chunks
                                    lastChunk (S n) (index + 1)
                                    (packages ++ (newPackage <$> objects))))
      as [|x xs] eqn:Hlog; [discriminate|].
    rewrite last_cons, IH. done.
Qed.

(** X13: against a search service that returns full pages, a positive
    quantity yields exactly that many packages (5250 at most), and the last
    progress event the logger receives reports 1. *)
Theorem full_pages_give_the_quantity
    (search : Z -> Z -> Settled (list SearchObject)) (quantity : option Z)
    (logs : bool) :
  fullPages search ->
  let wanted := Z.min (default 1000%Z quantity) 5250 in
  let run := getNpmTopPackages search quantity logs in
  (0 < wanted)%Z ->
  exists l,
    top_result run = Fulfilled l /\
    Z.of_nat (length l) = wanted /\
    (logs = true -> last (snd <$> top_logged run) = Some 1%Q).
Proof.
  intros Hfull wanted run Hpos.
  assert (Hans : alwaysAnswers search).
  { intros s f. destruct (Hfull s f) as (objects & Hs & _). by exists objects. }
  destruct (pages_of_a_positive_quantity search quantity logs Hans Hpos)
    as (Hsum & Hsizes & _ & Hlen & _).
  assert (Hres : match top_result run with
                 | Fulfilled l =>
                     l = concat (pageOf search <$> top_requests run) /\
                     Forall (fun rq => fulfilled (search (fst rq) (snd rq)) = true)
                            (top_requests run)
                 | Rejected error =>
                     exists earlier last,
                       top_requests run = earlier ++ [last] /\
                       search (fst last) (snd last) = Rejected error /\
                       Forall (fun rq => fulfilled (search (fst rq) (snd rq)) = true)
                              earlier
                 end).
  { subst run. unfold getNpmTopPackages. apply topPages_result. }
  fold run in Hsum, Hsizes, Hlen.
  destruct (top_result run) as [l|error] eqn:Hrun.
  - destruct Hres as [Hl _]. exists l. split; [done|].
    assert (Hlength : Z.of_nat (length l) = wanted).
    { rewrite Hl, length_pages by done. exact Hsum. }
    split; [done|]. intros ->.
    subst run. unfold getNpmTopPackages in *. fold wanted in Hrun, Hlen |- *.
    destruct (Z.to_nat (ceil_div wanted CHUNK_SIZE)) as [|n] eqn:Hn.
    + exfalso.
      assert (0 < ceil_div wanted CHUNK_SIZE)%Z; [|lia].
      unfold ceil_div, CHUNK_SIZE. Z.to_euclidean_division_equations. lia.
    + rewrite (topPages_last_event _ _ _ _ _ _ _ _ Hrun), Hlength. f_equal.
      rewrite (Qred_complete _ 1%Q); [done|].
      apply Qmult_inv_r. unfold Qeq. simpl. lia.
  - exfalso. destruct Hres as (earlier & last & Hreq & Hlast & _).
    destruct (Hans (fst last) (snd last)) as [objects Hok]. congruence.
Qed.

Lemma full_pages_give_the_quantity_witness :
  exists l,
    top_result (getNpmTopPackages constantSearch (Some 251%Z) true) = Fulfilled l /\
    length l = 251 /\
    last (snd <$> top_logged (getNpmTopPackages constantSearch (Some 251%Z) true))
    = Some 1%Q.
Proof.
  assert (Hfull : fullPages constantSearch).
  { intros s f. eexists. split; [reflexivity|]. intros Hs.
    rewrite length_replicate. lia. }
  destruct (full_pages_give_the_quantity constantSearch (Some 251%Z) true Hfull)
    as (l & Hres & Hlen & Hlast); [reflexivity|].
  exists l. split; [exact Hres|]. split; [|by apply Hlast].
  simpl in Hlen. lia.
Defined.

(** ** The seeds of the fetch command *)

Lemma append_empty (s : string) : s +:+ EmptyString = s.
Proof.
  induction s as [|a s IH]; [done|].
  change (String a (s +:+ EmptyString) = String a s). by rewrite IH.
Qed.

Lemma append_nil_l (s : string) : EmptyString +:+ s = s.
Proof. reflexivity. Qed.

Lemma append_char (a : ascii) (s t : string) :
  String a s +:+ t = String a (s +:+ t).
Proof. reflexivity. Qed.

Ltac norm_append :=
  repeat first [rewrite append_char | rewrite append_nil_l | rewrite append_empty].

Lemma split_absent (c : ascii) (s : string) :
  occurs c s = false -> split c s = [s].
Proof.
  induction s as [|a s IH]; simpl; [done|].
  destruct (Ascii.eqb a c); simpl; [discriminate|].
  intros Hs. by rewrite IH.
Qed.

Lemma split_first (c : ascii) (before rest : string) :
  occurs c before = false ->
  split c (before +:+ String c rest) = before :: split c rest.
Proof.
  induction before as [|a s IH]; simpl.
  - intros _. by rewrite Ascii.eqb_refl.
  - destruct (Ascii.eqb a c); simpl; [discriminate|].
    intros Hs. by rewrite IH.
Qed.

Lemma startsWith_absent (c : ascii) (base rest : string) :
  base <> EmptyString -> occurs c base = false ->
  startsWith c (base +:+ rest) = false.
Proof.
  destruct base as [|a s]; [done|]. simpl. intros _.
  by destruct (Ascii.eqb a c).
Qed.

(** X14: a seed written as [name], [name@version], [@scope/name] or
    [@scope/name@version] is read back as that name and that version (no
    version when none is written), provided the name is not empty and
    neither it (past the scope sign) nor the version holds an [@].  Whatever
    follows a further [@] is dropped. *)
Theorem seed_round_trip (scoped : bool) (base : string) :
  base <> EmptyString ->
  occurs "@" base = false ->
  let fullName := (if scoped then "@" else EmptyString) +:+ base in
  parsePackage (seedText scoped base None) = (fullName, None) /\
  (forall v, occurs "@" v = false ->
     parsePackage (seedText scoped base (Some v)) = (fullName, Some v)) /\
  (forall v rest, occurs "@" v = false ->
     parsePackage (seedText scoped base (Some (v +:+ "@" +:+ rest)))
     = (fullName, Some v)).
Proof.
  intros Hbase Hat fullName. subst fullName. unfold seedText, parsePackage.
  destruct scoped; (split; [|split]); intros; norm_append.
  - simpl. rewrite split_absent by done. done.
  - simpl. rewrite split_first, split_absent by done. done.
  - simpl. rewrite !split_first by done. simpl. by destruct (split "@" rest).
  - rewrite <- (append_empty base) at 1. rewrite startsWith_absent by done.
    rewrite split_absent by done. done.
  - rewrite startsWith_absent by done.
    rewrite split_first, split_absent by done. done.
  - rewrite startsWith_absent by done. rewrite !split_first by done. done.
Qed.

Lemma seed_round_trip_witness :
  parsePackage "@babel/core@7.0.0" = ("@babel/core", Some "7.0.0") /\
  parsePackage "lodash" = ("lodash", None).
Proof.
  split.
  - destruct (seed_round_trip true "babel/core") as (_ & Hversion & _);
      [discriminate | reflexivity |].
    apply (Hversion "7.0.0"). reflexivity.
  - destruct (seed_round_trip false "lodash") as (Hbare & _);
      [discriminate | reflexivity |].
    exact Hbare.
Defined.

Section Reduce.
Context {A : Type} (f g : A -> string).

Let assign (dependencies : Obj) (x : A) : Obj :=
  assign_property (f x) (g x) dependencies.

Lemma assign_property_keys (k v : string) (o : Obj) (n : string) :
  n ∈ obj_keys (assign_property k v o) <->
  n ∈ obj_keys o \/ (n = k /\ n <> "__proto__").
Proof.
  unfold assign_property. destruct (String.eqb k "__proto__") eqn:E.
  - apply String.eqb_eq in E. subst. split; [tauto|]. intros [?|[? ?]]; done.
  - apply String.eqb_neq in E. rewrite obj_keys_set.
    case_bool_decide as Hin.
    + split; [tauto|]. intros [?|[-> ?]]; done.
    + rewrite elem_of_app, list_elem_of_singleton.
      split; [intros [?| ->]; tauto | tauto].
Qed.

Lemma assign_property_get (k v : string) (o : Obj) (n : string) :
  obj_get n (assign_property k v o)
  = if String.eqb k n && negb (String.eqb k "__proto__") then Some v
    else obj_get n o.
Proof.
  unfold assign_property. destruct (String.eqb k "__proto__") eqn:E.
  - by rewrite andb_false_r.
  - by rewrite obj_get_set, andb_true_r.
Qed.

Lemma reduce_NoDup (items : list A) (o : Obj) :
  NoDup (obj_keys o) -> NoDup (obj_keys (fold_left assign items o)).
Proof.
  revert o. induction items as [|x items IH]; intros o Ho; simpl; [done|].
  apply IH. unfold assign, assign_property.
  destruct (String.eqb (f x) "__proto__"); [done | by apply obj_set_NoDup].
Qed.

Lemma reduce_keys (items : list A) (o : Obj) (n : string) :
  n ∈ obj_keys (fold_left assign items o) <->
  n ∈ obj_keys o \/ (n ∈ f <$> items /\ n <> "__proto__").
Proof.
  revert o. induction items as [|x items IH]; intros o; csimpl.
  - rewrite elem_of_nil. tauto.
  - rewrite IH. unfold assign at 1. rewrite assign_property_keys, elem_of_cons.
    tauto.
Qed.

Lemma reduce_get_absent (items : list A) (o : Obj) (n : string) :
  n ∉ f <$> items -> obj_get n (fold_left assign items o) = obj_get n o.
Proof.
  revert o. induction items as [|x items IH]; intros o Hn; csimpl; [done|].
  csimpl in Hn. apply not_elem_of_cons in Hn as [Hne Hn].
  rewrite IH by done. unfold assign. rewrite assign_property_get.
  destruct (String.eqb (f x) n) eqn:E; [|done].
  apply String.eqb_eq in E. congruence.
Qed.

Lemma reduce_last_wins (before after : list A) (x : A) (o : Obj) :
  f x <> "__proto__" ->
  f x ∉ f <$> after ->
  obj_get (f x) (fold_left assign (before ++ x :: after) o) = Some (g x).
Proof.
  intros Hproto Hafter. rewrite fold_left_app. simpl.
  rewrite reduce_get_absent by done. unfold assign.
  rewrite assign_property_get, String.eqb_refl.
  apply String.eqb_neq in Hproto. by rewrite Hproto.
Qed.

Lemma reduce_values (items : list A) (o : Obj) (n v : string) :
  obj_get n (fold_left assign items o) = Some v ->
  obj_get n o = Some v \/ exists x, x ∈ items /\ f x = n /\ g x = v.
Proof.
  revert o. induction items as [|x items IH]; intros o; simpl; [by left|].
  intros Hget. apply IH in Hget as [Hget|(y & Hy & Hf & Hg)].
  - unfold assign in Hget. rewrite assign_property_get in Hget.
    destruct (String.eqb (f x) n) eqn:E; [|by left].
    destruct (String.eqb (f x) "__proto__"); simpl in Hget; [by left|].
    apply String.eqb_eq in E. inversion Hget; subst.
    right. exists x. split; [apply elem_of_cons; by left | done].
  - right. exists y. split; [apply elem_of_cons; by right | done].
Qed.

Lemma reduce_length (items : list A) (o : Obj) :
  length (fold_left assign items o) <= length o + length items.
Proof.
  revert o. induction items as [|x items IH]; intros o; simpl; [lia|].
  specialize (IH (assign o x)).
  assert (length (assign o x) <= S (length o)); [|lia].
  unfold assign, assign_property.
  destruct (String.eqb (f x) "__proto__"); [lia|].
  rewrite <- !(length_fmap fst).
  change (fst <$> obj_set (f x) (g x) o) with (obj_keys (obj_set (f x) (g x) o)).
  rewrite obj_keys_set. case_bool_decide; unfold obj_keys.
  - lia.
  - rewrite length_app. simpl. lia.
Qed.
End Reduce.

(** X15: the seeds given on the command line become one dependency per
    distinct package name.  The names of the table are exactly the names of
    the seeds ([__proto__] aside, for which no property is made); when a
    name is given more than once its last seed decides the version; and no
    version of the table is empty, a seed without a version (or with an
    empty one) asking for [latest]. *)
Theorem seeds_become_dependencies (packages : list string) :
  let dependencies := seedDependencies packages in
  NoDup (obj_keys dependencies) /\
  (forall n, n ∈ obj_keys dependencies <->
             n <> "__proto__" /\
             exists seed, seed ∈ packages /\ fst (parsePackage seed) = n) /\
  (forall before seed after,
     packages = before ++ seed :: after ->
     fst (parsePackage seed) <> "__proto__" ->
     fst (parsePackage seed) ∉ (fun s => fst (parsePackage s)) <$> after ->
     obj_get (fst (parsePackage seed)) dependencies
     = Some (str_or (snd (parsePackage seed)) "latest")) /\
  (forall n v, obj_get n dependencies = Some v -> v <> EmptyString).
Proof.
  intros dependencies. subst dependencies. unfold seedDependencies.
  split; [|split; [|split]].
  - apply (reduce_NoDup (fun s => fst (parsePackage s))
             (fun s => str_or (snd (parsePackage s)) "latest")).
    apply NoDup_nil_2.
  - intros n.
    rewrite (reduce_keys (fun s => fst (parsePackage s))
               (fun s => str_or (snd (parsePackage s)) "latest")).
    rewrite list_elem_of_fmap. unfold obj_keys. csimpl. rewrite elem_of_nil.
    split.
    + intros [[]|[(seed & -> & Hseed) Hproto]]. split; [done|]. by exists seed.
    + intros (Hproto & seed & Hseed & <-). right. split; [|done]. by exists seed.
  - intros before seed after -> Hproto Hafter.
    by apply (reduce_last_wins (fun s => fst (parsePackage s))
                (fun s => str_or (snd (parsePackage s)) "latest")).
  - intros n v Hget.
    apply (reduce_values (fun s => fst (parsePackage s))
             (fun s => str_or (snd (parsePackage s)) "latest")) in Hget
      as [Hget|(seed & _ & _ & <-)]; [discriminate|].
    destruct (snd (parsePackage seed)) as [[|a s]|]; simpl; discriminate.
Qed.

(** X16: the top packages become one dependency per distinct name, with the
    version the search reported.  The names of the table are exactly the
    names of the packages ([__proto__] aside), the last package of a name
    decides its version, and the table is never longer than the list, so
    the number of packages the command announces is an upper bound on the
    dependencies it resolves from. *)
Theorem top_packages_become_dependencies (topPackages : list TopPackage) :
  let dependencies := topDependencies topPackages in
  NoDup (obj_keys dependencies) /\
  (forall n, n ∈ obj_keys dependencies <->
             n <> "__proto__" /\ n ∈ top_name <$> topPackages) /\
  (forall before p after,
     topPackages = before ++ p :: after ->
     top_name p <> "__proto__" ->
     top_name p ∉ top_name <$> after ->
     obj_get (top_name p) dependencies = Some (top_version p)) /\
  length dependencies <= length topPackages.
Proof.
  intros dependencies. subst dependencies. unfold topDependencies.
  split; [|split; [|split]].
  - apply (reduce_NoDup top_name top_version), NoDup_nil_2.
  - intros n. rewrite (reduce_keys top_name top_version).
    unfold obj_keys. csimpl. rewrite elem_of_nil. tauto.
  - intros before p after -> Hproto Hafter.
    by apply (reduce_last_wins top_name top_version).
  - apply (reduce_length top_name top_version).
Qed.

(** ** downloadAllVersionsOf: the unique packages *)

Section FromEntries.
Context {A : Type}.

Let assign (o : list (string * A)) (kv : string * A) : list (string * A) :=
  entry_set (fst kv) (snd kv) o.

Lemma entry_set_keys (k : string) (v : A) (o : list (string * A)) :
  fst <$> entry_set k v o =
  if bool_decide (k ∈ fst <$> o) then fst <$> o else (fst <$> o) ++ [k].
Proof.
  induction o as [|[k1 v1] o IH]; csimpl.
  - reflexivity.
  - destruct (String.eqb k1 k) eqn:E; csimpl.
    + apply String.eqb_eq in E. subst.
      rewrite bool_decide_eq_true_2; [done | apply elem_of_cons; by left].
    + apply String.eqb_neq in E. rewrite IH.
      destruct (decide (k ∈ fst <$> o)) as [Hin|Hin].
      * rewrite !bool_decide_eq_true_2; [done | apply elem_of_cons; by right | done].
      * rewrite !bool_decide_eq_false_2; [done | | done].
        rewrite elem_of_cons. intros [?|?]; [congruence | done].
Qed.

Lemma entry_set_absent (k : string) (v : A) (o : list (string * A)) :
  k ∉ fst <$> o -> entry_set k v o = o ++ [(k, v)].
Proof.
  induction o as [|[k1 v1] o IH]; csimpl; [done|].
  intros Hk. apply not_elem_of_cons in Hk as [Hne Hk].
  destruct (String.eqb k1 k) eqn:E.
  - apply String.eqb_eq in E. congruence.
  - by rewrite IH.
Qed.

Lemma entry_set_elem (k : string) (v : A) (o : list (string * A)) (e : string * A) :
  e ∈ entry_set k v o -> e = (k, v) \/ e ∈ o.
Proof.
  induction o as [|[k1 v1] o IH]; csimpl.
  - rewrite list_elem_of_singleton. by left.
  - destruct (String.eqb k1 k) eqn:E.
    + apply String.eqb_eq in E. subst. rewrite !elem_of_cons. tauto.
    + rewrite !elem_of_cons. intros [?|?]; [tauto|]. destruct IH; tauto.
Qed.

Lemma entry_set_new (k : string) (v : A) (o : list (string * A)) :
  (k, v) ∈ entry_set k v o.
Proof.
  induction o as [|[k1 v1] o IH]; csimpl.
  - apply list_elem_of_singleton. done.
  - destruct (String.eqb k1 k) eqn:E.
    + apply String.eqb_eq in E. subst. apply elem_of_cons. by left.
    + apply elem_of_cons. by right.
Qed.

Lemma entry_set_other (k : string) (v : A) (o : list (string * A)) (e : string * A) :
  fst e <> k -> e ∈ o -> e ∈ entry_set k v o.
Proof.
  intros Hne. induction o as [|[k1 v1] o IH]; csimpl.
  - by intros ?%elem_of_nil.
  - destruct (String.eqb k1 k) eqn:E.
    + apply String.eqb_eq in E. subst. rewrite !elem_of_cons.
      intros [->|?]; [done | by right].
    + rewrite !elem_of_cons. intros [?|?]; [by left | right; by apply IH].
Qed.

Lemma fromEntries_snoc (entries : list (string * A)) (kv : string * A) :
  fromEntries (entries ++ [kv]) = entry_set (fst kv) (snd kv) (fromEntries entries).
Proof. unfold fromEntries. by rewrite fold_left_app. Qed.

Lemma fromEntries_NoDup (entries : list (string * A)) :
  NoDup (fst <$> fromEntries entries).
Proof.
  induction entries as [|kv entries IH] using rev_ind; [apply NoDup_nil_2|].
  rewrite fromEntries_snoc, entry_set_keys. case_bool_decide; [done|].
  apply NoDup_app. split; [done|]. split; [|apply NoDup_singleton].
  intros x Hx Hk. apply list_elem_of_singleton in Hk. by subst.
Qed.

Lemma fromEntries_elem (entries : list (string * A)) (e : string * A) :
  e ∈ fromEntries entries -> e ∈ entries.
Proof.
  induction entries as [|kv entries IH] using rev_ind; [done|].
  rewrite fromEntries_snoc. intros [->|He]%entry_set_elem; rewrite elem_of_app.
  - right. destruct kv. apply list_elem_of_singleton. done.
  - left. by apply IH.
Qed.

Lemma fromEntries_keys (entries : list (string * A)) (k : string) :
  k ∈ fst <$> entries -> k ∈ fst <$> fromEntries entries.
Proof.
  induction entries as [|kv entries IH] using rev_ind; [done|].
  rewrite fromEntries_snoc, entry_set_keys, fmap_app, elem_of_app. csimpl.
  rewrite list_elem_of_singleton. intros [Hk| ->].
  - case_bool_decide; [by apply IH|]. apply elem_of_app. left. by apply IH.
  - case_bool_decide; [done|]. apply elem_of_app. right.
    by apply list_elem_of_singleton.
Qed.

Lemma fromEntries_last_wins (before after : list (string * A)) (e : string * A) :
  fst e ∉ fst <$> after -> e ∈ fromEntries (before ++ e :: after).
Proof.
  induction after as [|kv after IH] using rev_ind; intros Hafter.
  - rewrite fromEntries_snoc. destruct e. apply entry_set_new.
  - rewrite fmap_app, not_elem_of_app in Hafter. destruct Hafter as [Hafter Hkv].
    csimpl in Hkv. rewrite list_elem_of_singleton in Hkv.
    rewrite app_comm_cons, app_assoc, fromEntries_snoc.
    apply entry_set_other; [done|]. by apply IH.
Qed.

Lemma fold_entries_keys (entries acc : list (string * A)) :
  fst <$> fold_left assign entries acc =
  (fst <$> acc) ++ firstOccurrences (fst <$> acc) (fst <$> entries).
Proof.
  revert acc. induction entries as [|[k v] entries IH]; intros acc; csimpl.
  - by rewrite app_nil_r.
  - rewrite IH. unfold assign at 1 2. csimpl. rewrite entry_set_keys.
    case_bool_decide; [done|]. by rewrite <- app_assoc.
Qed.

Lemma fold_entries_distinct (entries acc : list (string * A)) :
  NoDup (fst <$> (acc ++ entries)) -> fold_left assign entries acc = acc ++ entries.
Proof.
  revert acc. induction entries as [|[k v] entries IH]; intros acc Hnd; csimpl.
  - by rewrite app_nil_r.
  - assert (Hk : k ∉ fst <$> acc).
    { rewrite fmap_app in Hnd. apply NoDup_app in Hnd as (_ & Hdisj & _).
      intros Hin. apply (Hdisj k Hin). csimpl. apply elem_of_cons. by left. }
    unfold assign at 2. csimpl. rewrite entry_set_absent by done.
    rewrite IH; [by rewrite <- app_assoc|]. by rewrite <- app_assoc.
Qed.
End FromEntries.

Lemma uniqPackages_keys (allPackages : list Resolved) :
  packageKey <$> uniqPackages allPackages
  = fst <$> fromEntries ((fun p => (packageKey p, p)) <$> allPackages).
Proof.
  unfold uniqPackages. rewrite <- list_fmap_compose.
  apply list_fmap_ext. intros i [k p] Hi. simpl.
  apply list_elem_of_lookup_2, fromEntries_elem, list_elem_of_fmap in Hi
    as (q & [= -> ->] & _).
  done.
Qed.

(** X17: the packages of all versions are made unique by their
    [name@version] key.  The result holds one package per key; every one of
    its packages is one of the given ones and every given key is kept; the
    keys stand in the order of their first appearance, while the package
    kept for a key is the last one given with it. *)
Theorem uniq_keeps_one_package_per_key (allPackages : list Resolved) :
  let uniq := uniqPackages allPackages in
  NoDup (packageKey <$> uniq) /\
  (forall p, p ∈ uniq -> p ∈ allPackages) /\
  (forall p, p ∈ allPackages -> packageKey p ∈ packageKey <$> uniq) /\
  packageKey <$> uniq = firstOccurrences [] (packageKey <$> allPackages) /\
  (forall before p after,
     allPackages = before ++ p :: after ->
     packageKey p ∉ packageKey <$> after ->
     p ∈ uniq).
Proof.
  intros uniq. subst uniq. split; [|split; [|split; [|split]]].
  - rewrite uniqPackages_keys. apply fromEntries_NoDup.
  - intros p Hp. unfold uniqPackages in Hp.
    apply list_elem_of_fmap in Hp as ([k q] & -> & Hq).
    apply fromEntries_elem, list_elem_of_fmap in Hq as (r & [= -> ->] & Hr).
    done.
  - intros p Hp. rewrite uniqPackages_keys. apply fromEntries_keys.
    rewrite <- list_fmap_compose. apply list_elem_of_fmap. by exists p.
  - rewrite uniqPackages_keys. unfold fromEntries.
    rewrite fold_entries_keys. csimpl. by rewrite <- list_fmap_compose.
  - intros before p after -> Hafter. unfold uniqPackages.
    apply list_elem_of_fmap. exists (packageKey p, p). split; [done|].
    rewrite fmap_app, fmap_cons. apply fromEntries_last_wins.
    by rewrite <- list_fmap_compose.
Qed.

(** X18: packages whose [name@version] keys are already distinct pass
    through unchanged, in their order; hence making a list unique twice
    changes nothing more. *)
Theorem uniq_is_the_identity_on_distinct_keys (allPackages : list Resolved) :
  NoDup (packageKey <$> allPackages) ->
  uniqPackages allPackages = allPackages.
Proof.
  intros Hnd. unfold uniqPackages, fromEntries.
  rewrite (fold_entries_distinct _ []).
  - csimpl. rewrite <- list_fmap_compose. apply list_fmap_id.
  - csimpl. by rewrite <- list_fmap_compose.
Qed.

Lemma uniq_is_the_identity_on_distinct_keys_witness :
  uniqPackages (uniqPackages threeResolved) = uniqPackages threeResolved.
Proof.
  apply (uniq_is_the_identity_on_distinct_keys (uniqPackages threeResolved)).
  apply (bool_decide_unpack _). vm_compute. exact I.
Defined.
